(** * Keyboard input of the volleyball game: [Key] and [PikaKeyboard]

    A shallow embedding of [src/resources/js/keyboard.js].

    The JavaScript objects live in a store: every [Key] object has an
    address in [heap], the keyboard holds references to its six keys, and
    the listeners registered on [window] are the bound functions
    [this.downListener] / [this.upListener] of those same key objects, so a
    raw event delivered by the window mutates the key a keyboard reads
    later.  A method that dereferences something that is not a [Key]
    (JavaScript raises a TypeError there) returns [None]. *)

From Stdlib Require Import ZArith String Lia.
From stdpp Require Import base option list.

Local Open Scope Z_scope.

(** ** The ambient event stream: [window] *)

Inductive EventType := keydown | keyup.

(** A bound function [handler.bind(key)].  Its identity is the key object
    it is bound to (an address of the heap) together with the handler. *)
Inductive Listener := downListener (a : nat) | upListener (a : nat).

#[global] Instance EventType_eq_dec : EqDecision EventType.
Proof. solve_decision. Defined.

#[global] Instance Listener_eq_dec : EqDecision Listener.
Proof. solve_decision. Defined.

(** The key object a bound function was bound to. *)
Definition bound_this (l : Listener) : nat :=
  match l with downListener a => a | upListener a => a end.

Record KeyboardEvent := {
  type : EventType;
  code : string;
  cancelable : bool;
  defaultPrevented : bool
}.

(** [event.preventDefault()]: the default action is cancelled only when
    the event is cancelable (the listeners of this file are not passive);
    on an event that is not cancelable the call has no effect. *)
Definition preventDefault (event : KeyboardEvent) : KeyboardEvent :=
  {| type := type event;
     code := code event;
     cancelable := cancelable event;
     defaultPrevented := cancelable event || defaultPrevented event |}.

(** A raw event as the browser creates it for a key that goes down or
    up: such events are cancelable. *)
Definition raw (t : EventType) (c : string) : KeyboardEvent :=
  {| type := t; code := c; cancelable := true; defaultPrevented := false |}.

(** The event listener list of [window].  [addEventListener] appends a
    listener unless one with the same type and callback is already in the
    list; [removeEventListener] removes the listeners with that type and
    callback. *)
Definition addEventListener (t : EventType) (l : Listener)
    (ls : list (EventType * Listener)) : list (EventType * Listener) :=
  if decide ((t, l) ∈ ls) then ls else ls ++ [(t, l)].

Definition removeEventListener (t : EventType) (l : Listener)
    (ls : list (EventType * Listener)) : list (EventType * Listener) :=
  filter (λ x, x ≠ (t, l)) ls.

(** The calls a method makes on [window], in program order. *)
Inductive WindowCall :=
  | AddEventListener (t : EventType) (l : Listener)
  | RemoveEventListener (t : EventType) (l : Listener).

Definition window_call (c : WindowCall)
    (ls : list (EventType * Listener)) : list (EventType * Listener) :=
  match c with
  | AddEventListener t l => addEventListener t l ls
  | RemoveEventListener t l => removeEventListener t l ls
  end.

Definition window_calls (cs : list WindowCall)
    (ls : list (EventType * Listener)) : list (EventType * Listener) :=
  fold_left (λ acc c, window_call c acc) cs ls.

(** ** The object store *)

(** A JavaScript value held in a field that is meant to hold a [Key]. *)
Inductive Ref := null | obj (a : nat).

#[global] Instance Ref_eq_dec : EqDecision Ref.
Proof. solve_decision. Defined.

Definition truthy (r : Ref) : bool :=
  match r with null => false | obj _ => true end.

(** [event.code === this.value]: [value] is a string or [null]; a string
    is never strictly equal to [null]. *)
Definition strict_equal (c : string) (v : option string) : bool :=
  match v with
  | Some s => String.eqb c s
  | None => false
  end.

(** The fields of a [Key] object.  Its two bound listeners are
    [downListener a] and [upListener a], [a] being its address. *)
Record KeyObject := {
  value : option string;
  isDown : bool;
  isUp : bool
}.

(** [this.isDown = true; this.isUp = false] *)
Definition set_down (k : KeyObject) : KeyObject :=
  {| value := value k; isDown := true; isUp := false |}.

(** [this.isDown = false; this.isUp = true] *)
Definition set_up (k : KeyObject) : KeyObject :=
  {| value := value k; isDown := false; isUp := true |}.

Record World := {
  listeners : list (EventType * Listener);
  heap : list KeyObject
}.

Definition deref (w : World) (r : Ref) : option KeyObject :=
  match r with
  | null => None
  | obj a => heap w !! a
  end.

(** The address of the key a reference denotes; [None] when it denotes
    no key. *)
Definition address (w : World) (r : Ref) : option nat :=
  match r with
  | null => None
  | obj a => if decide (a < length (heap w))%nat then Some a else None
  end.

Definition store (a : nat) (k : KeyObject) (w : World) : World :=
  {| listeners := listeners w; heap := <[a := k]> (heap w) |}.

Definition on_window (cs : list WindowCall) (w : World) : World :=
  {| listeners := window_calls cs (listeners w); heap := heap w |}.

(** ** class Key *)

Module Key.

(** [downHandler(event)], with [this] bound to the key at address [a]. *)
Definition downHandler (a : nat) (event : KeyboardEvent) (w : World)
    : option (World * KeyboardEvent) :=
  k ← heap w !! a;
  if strict_equal (code event) (value k)
  then Some (store a (set_down k) w, preventDefault event)
  else Some (w, event).

(** [upHandler(event)], with [this] bound to the key at address [a]. *)
Definition upHandler (a : nat) (event : KeyboardEvent) (w : World)
    : option (World * KeyboardEvent) :=
  k ← heap w !! a;
  if strict_equal (code event) (value k)
  then Some (store a (set_up k) w, preventDefault event)
  else Some (w, event).

(** The calls of [subscribe()]: keyup first, then keydown. *)
Definition subscribe_calls (a : nat) : list WindowCall :=
  [ AddEventListener keyup (upListener a);
    AddEventListener keydown (downListener a) ].

(** The calls of [unsubscribe()]. *)
Definition unsubscribe_calls (a : nat) : list WindowCall :=
  [ RemoveEventListener keydown (downListener a);
    RemoveEventListener keyup (upListener a) ].

Definition subscribe (this : Ref) (w : World) : option World :=
  a ← address w this;
  Some (on_window (subscribe_calls a) w).

Definition unsubscribe (this : Ref) (w : World) : option World :=
  a ← address w this;
  let w1 := on_window (unsubscribe_calls a) w in
  k ← heap w1 !! a;
  Some (store a (set_up k) w1).

(** [new Key(value)]: the object is allocated at the next free address,
    its two bound listeners are [downListener a] and [upListener a], and
    it subscribes at once. *)
Definition constructor (value : option string) (w : World)
    : option (Ref * World) :=
  let a := length (heap w) in
  let this :=
    {| value := value; isDown := false; isUp := true |} in
  let w1 := {| listeners := listeners w; heap := heap w ++ [this] |} in
  w2 ← subscribe (obj a) w1;
  Some (obj a, w2).

End Key.

(** ** Delivery of an event by [window] *)

Definition invoke (l : Listener) (event : KeyboardEvent) (w : World)
    : option (World * KeyboardEvent) :=
  match l with
  | downListener a => Key.downHandler a event w
  | upListener a => Key.upHandler a event w
  end.

(** The listeners registered for the type of the event run in the order
    of their registration. *)
Fixpoint deliver (ls : list (EventType * Listener)) (event : KeyboardEvent)
    (w : World) : option (World * KeyboardEvent) :=
  match ls with
  | [] => Some (w, event)
  | (t, l) :: rest =>
      if decide (t = type event)
      then '(w1, event1) ← invoke l event w; deliver rest event1 w1
      else deliver rest event w
  end.

Definition dispatchEvent (event : KeyboardEvent) (w : World)
    : option (World * KeyboardEvent) :=
  deliver (listeners w) event w.

(** ** class PikaKeyboard extends PikaUserInput *)

(** The base class is defined in [physics.js]; the object [super()] leaves
    behind is a parameter of the constructor below. *)
Module PikaUserInput.

Record t := {
  xDirection : Z;
  yDirection : Z;
  powerHit : Z
}.

End PikaUserInput.

Module PikaKeyboard.

Record t := {
  xDirection : Z;
  yDirection : Z;
  powerHit : Z;
  powerHitKeyIsDownPrevious : bool;
  leftKey : Ref;
  rightKey : Ref;
  upKey : Ref;
  downKey : Ref;
  powerHitKey : Ref;
  downRightKey : Ref
}.

(** [this.someKey.isDown]: a TypeError when the field holds no key. *)
Definition read_isDown (w : World) (r : Ref) : option bool :=
  isDown <$> deref w r.

(** [(this.downRightKey && this.downRightKey.isDown)], as a condition:
    the field is tested for truthiness before it is dereferenced. *)
Definition downRight_isDown (w : World) (this : t) : option bool :=
  if truthy (downRightKey this)
  then read_isDown w (downRightKey this)
  else Some false.

Definition read_xDirection (w : World) (this : t) : option Z :=
  leftDown ← read_isDown w (leftKey this);
  if (leftDown : bool) then Some (-1)
  else
    rightDown ← read_isDown w (rightKey this);
    if (rightDown : bool) then Some 1
    else
      combo ← downRight_isDown w this;
      Some (if (combo : bool) then 1 else 0).

Definition read_yDirection (w : World) (this : t) : option Z :=
  upDown ← read_isDown w (upKey this);
  if (upDown : bool) then Some (-1)
  else
    downDown ← read_isDown w (downKey this);
    if (downDown : bool) then Some 1
    else
      combo ← downRight_isDown w this;
      Some (if (combo : bool) then 1 else 0).

Definition getInput (w : World) (this : t) : option (World * t) :=
  x ← read_xDirection w this;
  y ← read_yDirection w this;
  isDown ← read_isDown w (powerHitKey this);
  let hit :=
    if negb (powerHitKeyIsDownPrevious this) && isDown then 1 else 0 in
  Some (w,
        {| xDirection := x;
           yDirection := y;
           powerHit := hit;
           powerHitKeyIsDownPrevious := isDown;
           leftKey := leftKey this;
           rightKey := rightKey this;
           upKey := upKey this;
           downKey := downKey this;
           powerHitKey := powerHitKey this;
           downRightKey := downRightKey this |}).

Definition keys (this : t) : list Ref :=
  [ leftKey this; rightKey this; upKey this; downKey this;
    powerHitKey this; downRightKey this ].

Definition subscribe (w : World) (this : t) : option (World * t) :=
  w1 ← Key.subscribe (leftKey this) w;
  w2 ← Key.subscribe (rightKey this) w1;
  w3 ← Key.subscribe (upKey this) w2;
  w4 ← Key.subscribe (downKey this) w3;
  w5 ← Key.subscribe (powerHitKey this) w4;
  w6 ← Key.subscribe (downRightKey this) w5;
  Some (w6, this).

Definition unsubscribe (w : World) (this : t) : option (World * t) :=
  w1 ← Key.unsubscribe (leftKey this) w;
  w2 ← Key.unsubscribe (rightKey this) w1;
  w3 ← Key.unsubscribe (upKey this) w2;
  w4 ← Key.unsubscribe (downKey this) w3;
  w5 ← Key.unsubscribe (powerHitKey this) w4;
  w6 ← Key.unsubscribe (downRightKey this) w5;
  Some (w6, this).

Definition constructor (base : PikaUserInput.t)
    (left right up down powerHit : string) (downRight : option string)
    (w : World) : option (World * t) :=
  '(l, w1) ← Key.constructor (Some left) w;
  '(r, w2) ← Key.constructor (Some right) w1;
  '(u, w3) ← Key.constructor (Some up) w2;
  '(d, w4) ← Key.constructor (Some down) w3;
  '(p, w5) ← Key.constructor (Some powerHit) w4;
  '(c, w6) ← Key.constructor downRight w5;
  Some (w6,
        {| xDirection := PikaUserInput.xDirection base;
           yDirection := PikaUserInput.yDirection base;
           powerHit := PikaUserInput.powerHit base;
           powerHitKeyIsDownPrevious := false;
           leftKey := l;
           rightKey := r;
           upKey := u;
           downKey := d;
           powerHitKey := p;
           downRightKey := c |}).

(** What the game loop reads after [getInput()]. *)
Definition snapshot (this : t) : Z * Z * Z :=
  (xDirection this, yDirection this, powerHit this).

End PikaKeyboard.

(** ** The keyboard in its environment

    What can happen to a keyboard once it is constructed: the window
    delivers a raw event, or the game calls one of the three methods. *)

Inductive Op :=
  | Raw (t : EventType) (c : string)
  | GetInput
  | Subscribe
  | Unsubscribe.

Definition step (o : Op) (s : World * PikaKeyboard.t)
    : option (World * PikaKeyboard.t) :=
  match o with
  | Raw t c => '(w, _) ← dispatchEvent (raw t c) s.1; Some (w, s.2)
  | GetInput => PikaKeyboard.getInput s.1 s.2
  | Subscribe => PikaKeyboard.subscribe s.1 s.2
  | Unsubscribe => PikaKeyboard.unsubscribe s.1 s.2
  end.

Fixpoint run (ops : list Op) (s : World * PikaKeyboard.t)
    : option (World * PikaKeyboard.t) :=
  match ops with
  | [] => Some s
  | o :: rest => s1 ← step o s; run rest s1
  end.

(** The page before any keyboard exists. *)
Definition empty_world : World := {| listeners := []; heap := [] |}.

(** ** Operations on single keys

    The operations of one [Key], including a direct call of a handler
    whether or not it is registered. *)

Inductive KeyOp :=
  | KNew (value : option string)
  | KPress (a : nat) (event : KeyboardEvent)
  | KRelease (a : nat) (event : KeyboardEvent)
  | KSubscribe (this : Ref)
  | KUnsubscribe (this : Ref)
  | KDispatch (event : KeyboardEvent).

Definition key_step (o : KeyOp) (w : World) : option World :=
  match o with
  | KNew v => snd <$> Key.constructor v w
  | KPress a event => fst <$> Key.downHandler a event w
  | KRelease a event => fst <$> Key.upHandler a event w
  | KSubscribe this => Key.subscribe this w
  | KUnsubscribe this => Key.unsubscribe this w
  | KDispatch event => fst <$> dispatchEvent event w
  end.

(** The worlds after each operation of a sequence, in order. *)
Fixpoint key_trace (ops : list KeyOp) (w : World) : option (list World) :=
  match ops with
  | [] => Some []
  | o :: rest => w1 ← key_step o w; ws ← key_trace rest w1; Some (w1 :: ws)
  end.

(** ** What one [getInput()] call saw and produced *)

Record Capture := {
  held : bool;    (* [this.powerHitKey.isDown] when the call was made *)
  pulse : Z       (* [this.powerHit] after the call *)
}.

Fixpoint captures (ops : list Op) (s : World * PikaKeyboard.t)
    : option (list Capture * (World * PikaKeyboard.t)) :=
  match ops with
  | [] => Some ([], s)
  | o :: rest =>
      s1 ← step o s;
      '(cs, s2) ← captures rest s1;
      match o with
      | GetInput =>
          h ← PikaKeyboard.read_isDown s.1 (PikaKeyboard.powerHitKey s.2);
          Some ({| held := h; pulse := PikaKeyboard.powerHit s1.2 |} :: cs, s2)
      | _ => Some (cs, s2)
      end
  end.

(** A method of [Key] called on several keys one after the other, as
    [PikaKeyboard.subscribe] and [PikaKeyboard.unsubscribe] do. *)
Fixpoint for_each_key (m : Ref → World → option World) (rs : list Ref)
    (w : World) : option World :=
  match rs with
  | [] => Some w
  | r :: rest => w1 ← m r w; for_each_key m rest w1
  end.

(** The pulses an edge detector gives on a sequence of samples, from
    the sample before the first one. *)
Fixpoint rising_edges (previous : bool) (samples : list bool) : list Z :=
  match samples with
  | [] => []
  | h :: rest =>
      (if negb previous && h then 1 else 0) :: rising_edges h rest
  end.

(** ** Invariants *)

Definition exclusive (w : World) : Prop :=
  ∀ a k, heap w !! a = Some k → isDown k = negb (isUp k).

Definition null_is_up (w : World) : Prop :=
  ∀ a k, heap w !! a = Some k → value k = None →
         isDown k = false ∧ isUp k = true.

(** Every listener on the window belongs to a key of the heap and is
    registered for its own event type; a key that is down is still being
    listened to. *)
Record world_ok (w : World) : Prop := {
  ok_bound : ∀ t l, (t, l) ∈ listeners w →
             (bound_this l < length (heap w))%nat;
  ok_paired : ∀ t l, (t, l) ∈ listeners w →
              (t, l) = (keyup, upListener (bound_this l)) ∨
              (t, l) = (keydown, downListener (bound_this l));
  ok_exclusive : exclusive w;
  ok_null : null_is_up w;
  ok_listening : ∀ a k, heap w !! a = Some k → isDown k = true →
                 (keydown, downListener a) ∈ listeners w
}.

Definition allocated (w : World) (r : Ref) : Prop :=
  ∃ a, r = obj a ∧ (a < length (heap w))%nat.

Definition keyboard_ok (w : World) (this : PikaKeyboard.t) : Prop :=
  Forall (allocated w) (PikaKeyboard.keys this).

Definition Inv (s : World * PikaKeyboard.t) : Prop :=
  world_ok s.1 ∧ keyboard_ok s.1 s.2.

(** No bound function of the key [r] is on the window. *)
Definition silent (w : World) (r : Ref) : Prop :=
  ∀ t l, (t, l) ∈ listeners w → obj (bound_this l) ≠ r.

Definition unsubscribed (w : World) (this : PikaKeyboard.t) : Prop :=
  Forall (silent w) (PikaKeyboard.keys this).

Definition is_up (w : World) (r : Ref) : Prop :=
  ∃ k, deref w r = Some k ∧ isDown k = false ∧ isUp k = true.

Definition all_up (w : World) (this : PikaKeyboard.t) : Prop :=
  Forall (is_up w) (PikaKeyboard.keys this).

(** Keys are never freed and never change their code. *)
Definition evolves (w w' : World) : Prop :=
  (length (heap w) ≤ length (heap w'))%nat ∧
  ∀ a k, heap w !! a = Some k →
         ∃ k', heap w' !! a = Some k' ∧ value k' = value k.

(** Raw events and [getInput()] calls only. *)
Definition passive (o : Op) : bool :=
  match o with
  | Raw _ _ | GetInput => true
  | Subscribe | Unsubscribe => false
  end.

(** ** Two concrete keyboards *)

Definition zero_input : PikaUserInput.t :=
  {| PikaUserInput.xDirection := 0;
     PikaUserInput.yDirection := 0;
     PikaUserInput.powerHit := 0 |}.

Definition fresh_key (c : option string) : KeyObject :=
  {| value := c; isDown := false; isUp := true |}.

Definition six_listeners : list (EventType * Listener) :=
  [ (keyup, upListener 0%nat); (keydown, downListener 0%nat);
    (keyup, upListener 1%nat); (keydown, downListener 1%nat);
    (keyup, upListener 2%nat); (keydown, downListener 2%nat);
    (keyup, upListener 3%nat); (keydown, downListener 3%nat);
    (keyup, upListener 4%nat); (keydown, downListener 4%nat);
    (keyup, upListener 5%nat); (keydown, downListener 5%nat) ].

Definition six_refs (x y hit : Z) (previous : bool) : PikaKeyboard.t :=
  {| PikaKeyboard.xDirection := x;
     PikaKeyboard.yDirection := y;
     PikaKeyboard.powerHit := hit;
     PikaKeyboard.powerHitKeyIsDownPrevious := previous;
     PikaKeyboard.leftKey := obj 0;
     PikaKeyboard.rightKey := obj 1;
     PikaKeyboard.upKey := obj 2;
     PikaKeyboard.downKey := obj 3;
     PikaKeyboard.powerHitKey := obj 4;
     PikaKeyboard.downRightKey := obj 5 |}.

Definition key_state (c : string) (down : bool) : KeyObject :=
  {| value := Some c; isDown := down; isUp := negb down |}.

(** Player 1 of the game, who has the combined down-right key, with some
    of the six keys held down. *)
Definition player1_holding (l r u d p c : bool) : World * PikaKeyboard.t :=
  ({| listeners := six_listeners;
      heap := [ key_state "KeyD" l; key_state "KeyG" r;
                key_state "KeyR" u; key_state "KeyV" d;
                key_state "KeyZ" p; key_state "KeyF" c ] |},
   six_refs 0 0 0 false).

Definition player1 : World * PikaKeyboard.t :=
  player1_holding false false false false false false.

(** ** What an event can do to one key *)

Inductive key_after (event : KeyboardEvent)
    (ls : list (EventType * Listener)) (a : nat) (k : KeyObject) : KeyObject → Prop :=
  | after_same : key_after event ls a k k
  | after_press :
      strict_equal (code event) (value k) = true →
      (type event, downListener a) ∈ ls →
      key_after event ls a k (set_down k)
  | after_release :
      strict_equal (code event) (value k) = true →
      (type event, upListener a) ∈ ls →
      key_after event ls a k (set_up k).

(** What any operation of a key can do to a key object. *)
Inductive key_moves (k : KeyObject) : KeyObject → Prop :=
  | moves_same : key_moves k k
  | moves_release : key_moves k (set_up k)
  | moves_press c :
      strict_equal c (value k) = true → key_moves k (set_down k).

(** A world whose keys are those of [w], each possibly moved. *)
Definition moved (w w1 : World) : Prop :=
  length (heap w1) = length (heap w) ∧
  ∀ a k, heap w !! a = Some k →
         ∃ k1, heap w1 !! a = Some k1 ∧ key_moves k k1.

(** The same, with new keys allowed. *)
Definition grown (w w1 : World) : Prop :=
  (∀ a k, heap w !! a = Some k →
          ∃ k1, heap w1 !! a = Some k1 ∧ key_moves k k1) ∧
  (∀ a k1, heap w1 !! a = Some k1 →
           is_Some (heap w !! a) ∨ ∃ v, k1 = fresh_key v).

(** The key at address [a] is the untouched key with a null code. *)
Definition null_key_at (a : nat) (w : World) : Prop :=
  heap w !! a = Some (fresh_key None).

(** ** What the delivery of an event does to a key, in closed form *)

(** The bound function a key registers for an event type. *)
Definition listener_for (t : EventType) (a : nat) : Listener :=
  match t with
  | keydown => downListener a
  | keyup => upListener a
  end.

(** The key at [a] has its listener for the type of the event among
    [ls], and its code is the code of the event. *)
Definition consumes (ls : list (EventType * Listener))
    (event : KeyboardEvent) (a : nat) (k : KeyObject) : bool :=
  strict_equal (code event) (value k) &&
  bool_decide ((type event, listener_for (type event) a) ∈ ls).

Definition react (ls : list (EventType * Listener))
    (event : KeyboardEvent) (a : nat) (k : KeyObject) : KeyObject :=
  if consumes ls event a k
  then match type event with
       | keydown => set_down k
       | keyup => set_up k
       end
  else k.

(** The two listeners of a key are on the window together or not at
    all. *)
Definition registered_in_pairs (w : World) : Prop :=
  ∀ a, (keydown, downListener a) ∈ listeners w ↔
       (keyup, upListener a) ∈ listeners w.

(** Both listeners of the key [r] are on the window. *)
Definition listening (w : World) (r : Ref) : Prop :=
  ∃ a, r = obj a ∧
       (keyup, upListener a) ∈ listeners w ∧
       (keydown, downListener a) ∈ listeners w.

Definition subscribed (w : World) (this : PikaKeyboard.t) : Prop :=
  Forall (listening w) (PikaKeyboard.keys this).

(** ** Counting presses and pulses *)

(** A raw keydown event with the code of a key whose code is [v]. *)
Definition is_press (v : option string) (o : Op) : bool :=
  match o with
  | Raw keydown c => strict_equal c v
  | _ => false
  end.

Fixpoint presses (v : option string) (ops : list Op) : Z :=
  match ops with
  | [] => 0
  | o :: rest => (if is_press v o then 1 else 0) + presses v rest
  end.

Fixpoint total (zs : list Z) : Z :=
  match zs with
  | [] => 0
  | z :: rest => z + total rest
  end.

(** * Proofs *)

Create HintDb keyboard.

#[local] Hint Constructors key_after key_moves : keyboard.

(** ** The listener list *)

Lemma elem_of_addEventListener t l ls x :
  x ∈ addEventListener t l ls ↔ x ∈ ls ∨ x = (t, l).
Proof.
  unfold addEventListener. case_decide as Hin.
  - split; [by left|]. by intros [?| ->].
  - rewrite elem_of_app, list_elem_of_singleton. tauto.
Qed.

Lemma elem_of_removeEventListener t l ls x :
  x ∈ removeEventListener t l ls ↔ x ∈ ls ∧ x ≠ (t, l).
Proof. unfold removeEventListener. rewrite list_elem_of_filter. tauto. Qed.

Lemma removeEventListener_absent t l ls :
  (t, l) ∉ ls → removeEventListener t l ls = ls.
Proof.
  unfold removeEventListener. induction ls as [|y ls IH]; intros Hn; [done|].
  rewrite not_elem_of_cons in Hn. destruct Hn as [Hy Hls].
  rewrite filter_cons_True by congruence. by rewrite IH.
Qed.

(** ** References *)

Lemma address_Some w r a :
  address w r = Some a ↔ r = obj a ∧ (a < length (heap w))%nat.
Proof.
  destruct r as [|b]; simpl; [by split; [|intros [? _]]|].
  case_decide as Hb; split.
  - by intros [= ->].
  - by intros [[= ->] _].
  - done.
  - intros [[= ->] ?]. lia.
Qed.

Lemma allocated_address w r :
  allocated w r → ∃ a k, r = obj a ∧ address w r = Some a ∧ heap w !! a = Some k.
Proof.
  intros (a & -> & Ha).
  destruct (lookup_lt_is_Some_2 _ _ Ha) as [k Hk].
  exists a, k. split_and!; [done| |done]. by apply address_Some.
Qed.

Lemma allocated_deref w r : allocated w r ↔ is_Some (deref w r).
Proof.
  split.
  - intros (a & -> & Ha). simpl. by apply lookup_lt_is_Some_2.
  - intros [k Hk]. destruct r as [|a]; [done|].
    exists a. split; [done|]. simpl in Hk. by eapply lookup_lt_Some.
Qed.

(** ** The two handlers *)

Lemma press_press k : set_down (set_down k) = set_down k.
Proof. done. Qed.

Lemma release_press k : set_up (set_down k) = set_up k.
Proof. done. Qed.

Lemma press_release k : set_down (set_up k) = set_down k.
Proof. done. Qed.

Lemma release_release k : set_up (set_up k) = set_up k.
Proof. done. Qed.

Lemma downHandler_eq a event w k :
  heap w !! a = Some k →
  Key.downHandler a event w =
    Some (if strict_equal (code event) (value k)
          then (store a (set_down k) w, preventDefault event)
          else (w, event)).
Proof.
  intros Hk. unfold Key.downHandler. rewrite Hk. simpl.
  by destruct (strict_equal _ _).
Qed.

Lemma upHandler_eq a event w k :
  heap w !! a = Some k →
  Key.upHandler a event w =
    Some (if strict_equal (code event) (value k)
          then (store a (set_up k) w, preventDefault event)
          else (w, event)).
Proof.
  intros Hk. unfold Key.upHandler. rewrite Hk. simpl.
  by destruct (strict_equal _ _).
Qed.

Lemma key_after_value event ls a k k' :
  key_after event ls a k k' → value k' = value k.
Proof. by destruct 1. Qed.

Lemma key_after_weaken event event' ls ls' a k k' :
  key_after event ls a k k' →
  type event = type event' → code event = code event' →
  (∀ x, x ∈ ls → x ∈ ls') →
  key_after event' ls' a k k'.
Proof.
  intros H Ht Hc Hsub. destruct H.
  - constructor.
  - constructor; [congruence|]. rewrite <- Ht. auto.
  - constructor; [congruence|]. rewrite <- Ht. auto.
Qed.

Lemma key_after_trans event ls a k k1 k2 :
  key_after event ls a k k1 → key_after event ls a k1 k2 →
  key_after event ls a k k2.
Proof.
  intros H1 H2.
  destruct H1 as [|Hm Hin|Hm Hin]; [done|..];
    destruct H2 as [|Hm2 Hin2|Hm2 Hin2]; simpl in *.
  - by apply after_press.
  - change (set_down (set_down k)) with (set_down k). by apply after_press.
  - change (set_up (set_down k)) with (set_up k).
    by apply after_release.
  - by apply after_release.
  - change (set_down (set_up k)) with (set_down k). by apply after_press.
  - change (set_up (set_up k)) with (set_up k).
    by apply after_release.
Qed.

(** ** Delivery of an event *)

Lemma store_lookup_eq a k w :
  (a < length (heap w))%nat → heap (store a k w) !! a = Some k.
Proof. intros. simpl. by apply list_lookup_insert_eq. Qed.

Lemma store_lookup_ne a b k w :
  a ≠ b → heap (store a k w) !! b = heap w !! b.
Proof. intros. simpl. by apply list_lookup_insert_ne. Qed.

Lemma store_length a k w : length (heap (store a k w)) = length (heap w).
Proof. simpl. apply length_insert. Qed.

(** One handler call: the world keeps its listeners and its keys, and
    only the key the handler is bound to may change. *)
Lemma invoke_spec l event w :
  (bound_this l < length (heap w))%nat →
  ∃ w1 event1,
    invoke l event w = Some (w1, event1) ∧
    listeners w1 = listeners w ∧
    length (heap w1) = length (heap w) ∧
    type event1 = type event ∧ code event1 = code event ∧
    ∀ a k, heap w !! a = Some k →
      ∃ k1, heap w1 !! a = Some k1 ∧ key_after event [(type event, l)] a k k1.
Proof.
  intros Hb.
  destruct (lookup_lt_is_Some_2 _ _ Hb) as [kb Hkb].
  destruct l as [b|b]; simpl in *.
  - rewrite (downHandler_eq _ _ _ _ Hkb).
    destruct (strict_equal (code event) (value kb)) eqn:Hm.
    + eexists _, _. split_and!; try done; [apply store_length|].
      intros a k Hk. destruct (decide (b = a)) as [->|Hne].
      * rewrite store_lookup_eq by done. eexists; split; [done|].
        assert (k = kb) as -> by congruence.
        apply after_press; [done|]. by apply list_elem_of_singleton.
      * rewrite store_lookup_ne by done. eexists; split; [done|]. constructor.
    + eexists _, _. split_and!; try done.
      intros a k Hk. eexists; split; [done|]. constructor.
  - rewrite (upHandler_eq _ _ _ _ Hkb).
    destruct (strict_equal (code event) (value kb)) eqn:Hm.
    + eexists _, _. split_and!; try done; [apply store_length|].
      intros a k Hk. destruct (decide (b = a)) as [->|Hne].
      * rewrite store_lookup_eq by done. eexists; split; [done|].
        assert (k = kb) as -> by congruence.
        apply after_release; [done|]. by apply list_elem_of_singleton.
      * rewrite store_lookup_ne by done. eexists; split; [done|]. constructor.
    + eexists _, _. split_and!; try done.
      intros a k Hk. eexists; split; [done|]. constructor.
Qed.

Lemma deliver_spec ls : ∀ event w,
  (∀ t l, (t, l) ∈ ls → (bound_this l < length (heap w))%nat) →
  ∃ w' event',
    deliver ls event w = Some (w', event') ∧
    listeners w' = listeners w ∧
    length (heap w') = length (heap w) ∧
    type event' = type event ∧ code event' = code event ∧
    ∀ a k, heap w !! a = Some k →
      ∃ k', heap w' !! a = Some k' ∧ key_after event ls a k k'.
Proof.
  induction ls as [|[t l] rest IH]; intros event w Hb; simpl.
  - eexists _, _. split_and!; try done.
    intros a k Hk. eexists; split; [done|]. constructor.
  - assert (Hrest : ∀ w1, length (heap w1) = length (heap w) →
              ∀ t' l', (t', l') ∈ rest →
                (bound_this l' < length (heap w1))%nat).
    { intros w1 Hlen t' l' Hin. rewrite Hlen. eapply Hb. by right. }
    case_decide as Ht.
    + destruct (invoke_spec l event w) as
        (w1 & event1 & -> & Hls1 & Hlen1 & Ht1 & Hc1 & Hk1).
      { eapply Hb. by left. }
      simpl.
      destruct (IH event1 w1 (Hrest w1 Hlen1)) as
        (w' & event' & -> & Hls & Hlen & Ht' & Hc' & Hk').
      eexists _, _. split_and!; try done; try congruence.
      intros a k Hk.
      destruct (Hk1 a k Hk) as (k1 & Hk1a & Hafter1).
      destruct (Hk' a k1 Hk1a) as (k' & Hk'a & Hafter).
      exists k'. split; [done|].
      eapply key_after_trans.
      * eapply key_after_weaken; [exact Hafter1|done|done|].
        intros x Hx. apply list_elem_of_singleton in Hx as ->.
        rewrite <- Ht. by left.
      * eapply key_after_weaken; [exact Hafter|done|done|].
        intros x Hx. by right.
    + destruct (IH event w (Hrest w eq_refl)) as
        (w' & event' & -> & Hls & Hlen & Ht' & Hc' & Hk').
      eexists _, _. split_and!; try done.
      intros a k Hk. destruct (Hk' a k Hk) as (k' & Hk'a & Hafter).
      exists k'. split; [done|].
      eapply key_after_weaken; [exact Hafter|done|done|].
      intros x Hx. by right.
Qed.

Lemma key_after_cases event ls a k k' :
  key_after event ls a k k' →
  k' = k ∨
  (strict_equal (code event) (value k) = true ∧
   (type event, downListener a) ∈ ls ∧ k' = set_down k) ∨
  (strict_equal (code event) (value k) = true ∧
   (type event, upListener a) ∈ ls ∧ k' = set_up k).
Proof. destruct 1; auto. Qed.

Lemma strict_equal_null c : strict_equal c None = false.
Proof. done. Qed.

Lemma dispatchEvent_spec event w :
  world_ok w →
  ∃ w' event',
    dispatchEvent event w = Some (w', event') ∧
    world_ok w' ∧
    listeners w' = listeners w ∧
    length (heap w') = length (heap w) ∧
    ∀ a k, heap w !! a = Some k →
      ∃ k', heap w' !! a = Some k' ∧ key_after event (listeners w) a k k'.
Proof.
  intros [Hbound Hpaired Hexcl Hnull Hlisten].
  destruct (deliver_spec (listeners w) event w Hbound) as
    (w' & event' & Hrun & Hls & Hlen & _ & _ & Hkeys).
  exists w', event'. split_and!; try done.
  assert (Hback : ∀ a k', heap w' !! a = Some k' →
            ∃ k, heap w !! a = Some k ∧ key_after event (listeners w) a k k').
  { intros a k' Hk'.
    assert (is_Some (heap w !! a)) as [k Hk].
    { apply lookup_lt_is_Some. rewrite <- Hlen. by eapply lookup_lt_Some. }
    destruct (Hkeys a k Hk) as (k'' & Hk'' & Hafter).
    exists k. split; [done|]. congruence. }
  split.
  - intros t l. rewrite Hls, Hlen. apply Hbound.
  - intros t l. rewrite Hls. apply Hpaired.
  - intros a k' Hk'. destruct (Hback a k' Hk') as (k & Hk & Hafter).
    specialize (Hexcl a k Hk).
    destruct (key_after_cases _ _ _ _ _ Hafter) as [->|[(_&_&->)|(_&_&->)]];
      done.
  - intros a k' Hk' Hv. destruct (Hback a k' Hk') as (k & Hk & Hafter).
    rewrite (key_after_value _ _ _ _ _ Hafter) in Hv.
    destruct (key_after_cases _ _ _ _ _ Hafter) as [->|[(Hm&_)|(Hm&_)]];
      [by eapply Hnull| |]; by rewrite Hv in Hm.
  - intros a k' Hk' Hdown. rewrite Hls.
    destruct (Hback a k' Hk') as (k & Hk & Hafter).
    destruct (key_after_cases _ _ _ _ _ Hafter) as [->|[(_&Hin&_)|(_&_&->)]].
    + by eapply Hlisten.
    + destruct (Hpaired _ _ Hin) as [Heq|Heq]; [done|]. congruence.
    + done.
Qed.

(** ** [Key.subscribe] and [Key.unsubscribe] *)

Lemma elem_of_subscribe_calls a ls x :
  x ∈ window_calls (Key.subscribe_calls a) ls ↔
  x ∈ ls ∨ x = (keyup, upListener a) ∨ x = (keydown, downListener a).
Proof.
  simpl. rewrite !elem_of_addEventListener. tauto.
Qed.

Lemma elem_of_unsubscribe_calls a ls x :
  x ∈ window_calls (Key.unsubscribe_calls a) ls ↔
  x ∈ ls ∧ x ≠ (keydown, downListener a) ∧ x ≠ (keyup, upListener a).
Proof.
  simpl. rewrite !elem_of_removeEventListener. tauto.
Qed.

Lemma Key_subscribe_eq w r :
  allocated w r →
  ∃ a, r = obj a ∧ (a < length (heap w))%nat ∧
       Key.subscribe r w =
         Some (on_window (Key.subscribe_calls a) w).
Proof.
  intros (a & -> & Ha). exists a. split_and!; [done..|].
  unfold Key.subscribe.
  by rewrite (proj2 (address_Some w (obj a) a) (conj eq_refl Ha)).
Qed.

Lemma Key_unsubscribe_eq w r :
  allocated w r →
  ∃ a k, r = obj a ∧ heap w !! a = Some k ∧
         Key.unsubscribe r w =
           Some (store a (set_up k)
                   (on_window (Key.unsubscribe_calls a) w)).
Proof.
  intros Hr. destruct (allocated_address w r Hr) as (a & k & -> & Ha & Hk).
  exists a, k. split_and!; [done..|].
  unfold Key.unsubscribe. rewrite Ha. simpl. by rewrite Hk.
Qed.

Lemma subscribe_calls_ok a w :
  (a < length (heap w))%nat → world_ok w →
  world_ok (on_window (Key.subscribe_calls a) w).
Proof.
  intros Ha [Hbound Hpaired Hexcl Hnull Hlisten]. split.
  - intros t l Hin. apply elem_of_subscribe_calls in Hin.
    destruct Hin as [Hin|[Heq|Heq]]; [by eapply Hbound|..];
      by injection Heq as -> ->.
  - intros t l Hin. apply elem_of_subscribe_calls in Hin.
    destruct Hin as [Hin|[Heq|Heq]]; [by eapply Hpaired|..];
      injection Heq as -> ->; auto.
  - exact Hexcl.
  - exact Hnull.
  - intros b k Hk Hd. apply elem_of_subscribe_calls. left. by eapply Hlisten.
Qed.

Lemma unsubscribe_ok a k w :
  heap w !! a = Some k → world_ok w →
  world_ok (store a (set_up k)
              (on_window (Key.unsubscribe_calls a) w)).
Proof.
  intros Ha [Hbound Hpaired Hexcl Hnull Hlisten].
  assert (Hlt : (a < length (heap w))%nat) by by eapply lookup_lt_Some.
  split.
  - intros t l Hin. rewrite store_length. simpl in *.
    apply elem_of_unsubscribe_calls in Hin. by eapply Hbound, Hin.
  - intros t l Hin. apply elem_of_unsubscribe_calls in Hin.
    by eapply Hpaired, Hin.
  - intros b kb Hb. destruct (decide (a = b)) as [->|Hne].
    + rewrite store_lookup_eq in Hb by done. by injection Hb as <-.
    + rewrite store_lookup_ne in Hb by done. by eapply Hexcl.
  - intros b kb Hb Hv. destruct (decide (a = b)) as [->|Hne].
    + rewrite store_lookup_eq in Hb by done. by injection Hb as <-.
    + rewrite store_lookup_ne in Hb by done. by eapply Hnull.
  - intros b kb Hb Hd. destruct (decide (a = b)) as [->|Hne].
    + rewrite store_lookup_eq in Hb by done. by injection Hb as <-.
    + rewrite store_lookup_ne in Hb by done.
      apply elem_of_unsubscribe_calls.
      split_and!; [by eapply Hlisten|congruence..].
Qed.

(** ** [new Key(value)] *)

Lemma Key_constructor_eq v w :
  Key.constructor v w =
    Some (obj (length (heap w)),
          on_window (Key.subscribe_calls (length (heap w)))
            {| listeners := listeners w; heap := heap w ++ [fresh_key v] |}).
Proof.
  unfold Key.constructor, Key.subscribe. simpl.
  rewrite length_app. simpl.
  case_decide; [done|lia].
Qed.

Lemma alloc_ok v w :
  world_ok w →
  world_ok {| listeners := listeners w; heap := heap w ++ [fresh_key v] |}.
Proof.
  intros [Hbound Hpaired Hexcl Hnull Hlisten].
  assert (Hnew : ∀ a k, (heap w ++ [fresh_key v]) !! a = Some k →
            heap w !! a = Some k ∨ k = fresh_key v).
  { intros a k Hk. apply lookup_app_Some in Hk as [Hk|[_ Hk]]; [by left|].
    right. apply list_lookup_singleton_Some in Hk. by destruct Hk. }
  split; simpl.
  - intros t l Hin. rewrite length_app. simpl.
    specialize (Hbound t l Hin). lia.
  - exact Hpaired.
  - intros a k Hk. destruct (Hnew a k Hk) as [Hk'| ->]; [by eapply Hexcl|done].
  - intros a k Hk. destruct (Hnew a k Hk) as [Hk'| ->]; [by eapply Hnull|done].
  - intros a k Hk. destruct (Hnew a k Hk) as [Hk'| ->]; [by eapply Hlisten|done].
Qed.

Lemma Key_constructor_ok v w :
  world_ok w →
  ∃ w', Key.constructor v w = Some (obj (length (heap w)), w') ∧
        world_ok w' ∧
        heap w' = heap w ++ [fresh_key v].
Proof.
  intros Hok. rewrite Key_constructor_eq. eexists. split; [done|].
  split; [|done]. apply subscribe_calls_ok; [|by apply alloc_ok].
  simpl. rewrite length_app. simpl. lia.
Qed.

(** ** Keys are never freed *)

Lemma evolves_refl w : evolves w w.
Proof. split; [done|]. intros a k Hk. by exists k. Qed.

Lemma evolves_trans w1 w2 w3 : evolves w1 w2 → evolves w2 w3 → evolves w1 w3.
Proof.
  intros [Hl1 Hk1] [Hl2 Hk2]. split; [lia|].
  intros a k Hk. destruct (Hk1 a k Hk) as (k' & Hk' & Hv').
  destruct (Hk2 a k' Hk') as (k'' & Hk'' & Hv'').
  exists k''. split; [done|congruence].
Qed.

Lemma allocated_mono w w' r :
  (length (heap w) ≤ length (heap w'))%nat → allocated w r → allocated w' r.
Proof. intros Hl (a & -> & Ha). exists a. split; [done|lia]. Qed.

Lemma keyboard_ok_mono w w' d :
  (length (heap w) ≤ length (heap w'))%nat →
  keyboard_ok w d → keyboard_ok w' d.
Proof.
  intros Hl Hd. unfold keyboard_ok in *.
  eapply Forall_impl; [exact Hd|]. intros r. by apply allocated_mono.
Qed.

Lemma evolves_store a k w :
  (∀ k0, heap w !! a = Some k0 → value k = value k0) →
  evolves w (store a k w).
Proof.
  intros Hv. split; [by rewrite store_length|].
  intros b kb Hb. destruct (decide (a = b)) as [->|Hne].
  - rewrite store_lookup_eq by by eapply lookup_lt_Some.
    exists k. split; [done|]. by apply Hv.
  - rewrite store_lookup_ne by done. by exists kb.
Qed.

Lemma evolves_on_window cs w : evolves w (on_window cs w).
Proof. split; [done|]. intros a k Hk. by exists k. Qed.

(** ** The six keys of a keyboard, one after the other *)

Lemma PikaKeyboard_subscribe_for_each w d :
  PikaKeyboard.subscribe w d =
    (λ w', (w', d)) <$> for_each_key Key.subscribe (PikaKeyboard.keys d) w.
Proof.
  unfold PikaKeyboard.subscribe, PikaKeyboard.keys. simpl.
  repeat (match goal with
          | |- context [Key.subscribe ?r ?v] =>
              destruct (Key.subscribe r v); simpl; [|done]
          end).
  done.
Qed.

Lemma PikaKeyboard_unsubscribe_for_each w d :
  PikaKeyboard.unsubscribe w d =
    (λ w', (w', d)) <$>
      for_each_key Key.unsubscribe (PikaKeyboard.keys d) w.
Proof.
  unfold PikaKeyboard.unsubscribe, PikaKeyboard.keys. simpl.
  repeat (match goal with
          | |- context [Key.unsubscribe ?r ?v] =>
              destruct (Key.unsubscribe r v); simpl; [|done]
          end).
  done.
Qed.

Lemma for_each_subscribe_spec rs : ∀ w,
  Forall (allocated w) rs → world_ok w →
  ∃ w', for_each_key Key.subscribe rs w = Some w' ∧
        world_ok w' ∧
        heap w' = heap w ∧
        ∀ x, x ∈ listeners w' ↔
             x ∈ listeners w ∨
             ∃ a, obj a ∈ rs ∧
                  (x = (keyup, upListener a) ∨ x = (keydown, downListener a)).
Proof.
  induction rs as [|r rest IH]; intros w Hrs Hok; simpl.
  - exists w. split_and!; [done..|]. intros x. split; [by left|].
    intros [?|(a & Ha & _)]; [done|]. by apply elem_of_nil in Ha.
  - apply Forall_cons in Hrs as [Hr Hrest].
    destruct (Key_subscribe_eq w r Hr) as (a & -> & Ha & ->). simpl.
    set (w1 := on_window (Key.subscribe_calls a) w).
    destruct (IH w1) as (w' & -> & Hok' & Hheap & Hls).
    { eapply Forall_impl; [exact Hrest|]. intros r. by apply allocated_mono. }
    { by apply subscribe_calls_ok. }
    exists w'. split_and!; [done..|].
    intros x. rewrite Hls. unfold w1.
    change (listeners (on_window (Key.subscribe_calls a) w))
      with (window_calls (Key.subscribe_calls a) (listeners w)).
    rewrite elem_of_subscribe_calls. split.
    + intros [[?|Hx]|(b & Hb & Hx)]; [by left| |].
      * right. exists a. split; [by left|done].
      * right. exists b. split; [by right|done].
    + intros [?|(b & Hb & Hx)]; [by left; left|].
      apply elem_of_cons in Hb as [[= ->]|Hb]; [by left; right|].
      right. by exists b.
Qed.

Lemma for_each_unsubscribe_spec rs : ∀ w,
  Forall (allocated w) rs →
  ∃ w', for_each_key Key.unsubscribe rs w = Some w' ∧
        (world_ok w → world_ok w') ∧
        length (heap w') = length (heap w) ∧
        (∀ x, x ∈ listeners w' ↔
              x ∈ listeners w ∧
              ∀ a, obj a ∈ rs →
                   x ≠ (keydown, downListener a) ∧ x ≠ (keyup, upListener a)) ∧
        ∀ a k, heap w !! a = Some k →
               heap w' !! a =
                 Some (if decide (obj a ∈ rs) then set_up k else k).
Proof.
  induction rs as [|r rest IH]; intros w Hrs; simpl.
  - exists w. split_and!; [done..| |].
    + intros x. split; [|tauto]. intros Hx. split; [done|].
      intros a Ha. by apply elem_of_nil in Ha.
    + done.
  - apply Forall_cons in Hrs as [Hr Hrest].
    destruct (Key_unsubscribe_eq w r Hr) as (a & k & -> & Hk & ->). simpl.
    set (w1 := store a (set_up k)
                 (on_window (Key.unsubscribe_calls a) w)).
    assert (Hlt : (a < length (heap w))%nat) by by eapply lookup_lt_Some.
    assert (Hlen1 : length (heap w1) = length (heap w))
      by (unfold w1; by rewrite store_length).
    destruct (IH w1) as (w' & -> & Hok' & Hlen & Hls & Hheap).
    { eapply Forall_impl; [exact Hrest|]. intros r.
      apply allocated_mono. by rewrite Hlen1. }
    exists w'. split_and!; [done| |congruence| |].
    + intros Hok. by apply Hok', unsubscribe_ok.
    + intros x. rewrite Hls. unfold w1.
      change (listeners (store a (set_up k)
                (on_window (Key.unsubscribe_calls a) w)))
        with (window_calls (Key.unsubscribe_calls a) (listeners w)).
      rewrite elem_of_unsubscribe_calls. split.
      * intros [(Hx & Hd & Hu) Hother]. split; [done|].
        intros b Hb. apply elem_of_cons in Hb as [[= ->]|Hb]; [done|].
        by apply Hother.
      * intros [Hx Hall]. split_and!; [done|by apply Hall; left..|].
        intros b Hb. by apply Hall; right.
    + intros b kb Hb.
      destruct (decide (a = b)) as [->|Hne].
      * assert (kb = k) as -> by congruence.
        rewrite (Hheap b (set_up k)) by by apply store_lookup_eq.
        rewrite (decide_True (P := obj b ∈ obj b :: rest)) by by left.
        by case_decide.
      * rewrite (Hheap b kb) by by (unfold w1; rewrite store_lookup_ne).
        f_equal.
        destruct (decide (obj b ∈ rest)) as [Hin|Hout],
                 (decide (obj b ∈ obj a :: rest)) as [Hin'|Hout']; try done.
        -- exfalso. by apply Hout'; right.
        -- apply elem_of_cons in Hin' as [[= ?]|?]; done.
Qed.

(** ** [getInput()] *)

Lemma keyboard_ok_deref w d :
  keyboard_ok w d →
  ∃ kl kr ku kd kp kc,
    deref w (PikaKeyboard.leftKey d) = Some kl ∧
    deref w (PikaKeyboard.rightKey d) = Some kr ∧
    deref w (PikaKeyboard.upKey d) = Some ku ∧
    deref w (PikaKeyboard.downKey d) = Some kd ∧
    deref w (PikaKeyboard.powerHitKey d) = Some kp ∧
    deref w (PikaKeyboard.downRightKey d) = Some kc.
Proof.
  unfold keyboard_ok, PikaKeyboard.keys. intros H.
  apply Forall_cons in H as [[kl Hl]%allocated_deref H].
  apply Forall_cons in H as [[kr Hr]%allocated_deref H].
  apply Forall_cons in H as [[ku Hu]%allocated_deref H].
  apply Forall_cons in H as [[kd Hd]%allocated_deref H].
  apply Forall_cons in H as [[kp Hp]%allocated_deref H].
  apply Forall_cons in H as [[kc Hc]%allocated_deref H].
  by exists kl, kr, ku, kd, kp, kc.
Qed.

Lemma deref_truthy w r k : deref w r = Some k → truthy r = true.
Proof. by destruct r. Qed.

Lemma getInput_eq w d kl kr ku kd kp kc :
  deref w (PikaKeyboard.leftKey d) = Some kl →
  deref w (PikaKeyboard.rightKey d) = Some kr →
  deref w (PikaKeyboard.upKey d) = Some ku →
  deref w (PikaKeyboard.downKey d) = Some kd →
  deref w (PikaKeyboard.powerHitKey d) = Some kp →
  deref w (PikaKeyboard.downRightKey d) = Some kc →
  PikaKeyboard.getInput w d =
    Some (w,
          {| PikaKeyboard.xDirection :=
               if isDown kl then -1
               else if isDown kr || isDown kc then 1 else 0;
             PikaKeyboard.yDirection :=
               if isDown ku then -1
               else if isDown kd || isDown kc then 1 else 0;
             PikaKeyboard.powerHit :=
               if negb (PikaKeyboard.powerHitKeyIsDownPrevious d)
                  && isDown kp then 1 else 0;
             PikaKeyboard.powerHitKeyIsDownPrevious := isDown kp;
             PikaKeyboard.leftKey := PikaKeyboard.leftKey d;
             PikaKeyboard.rightKey := PikaKeyboard.rightKey d;
             PikaKeyboard.upKey := PikaKeyboard.upKey d;
             PikaKeyboard.downKey := PikaKeyboard.downKey d;
             PikaKeyboard.powerHitKey := PikaKeyboard.powerHitKey d;
             PikaKeyboard.downRightKey := PikaKeyboard.downRightKey d |}).
Proof.
  intros Hl Hr Hu Hd Hp Hc.
  unfold PikaKeyboard.getInput, PikaKeyboard.read_xDirection,
    PikaKeyboard.read_yDirection, PikaKeyboard.downRight_isDown,
    PikaKeyboard.read_isDown.
  rewrite (deref_truthy _ _ _ Hc), Hl, Hr, Hu, Hd, Hp, Hc. simpl.
  destruct (isDown kl), (isDown kr), (isDown ku),
    (isDown kd), (isDown kc); reflexivity.
Qed.

(** ** [new PikaKeyboard(...)] *)

Lemma PikaKeyboard_constructor_spec base l r u dn p c w0 :
  world_ok w0 →
  ∃ w d,
    PikaKeyboard.constructor base l r u dn p c w0 = Some (w, d) ∧
    world_ok w ∧
    heap w = heap w0 ++ map fresh_key [Some l; Some r; Some u; Some dn; Some p; c] ∧
    PikaKeyboard.keys d =
      map (λ i, obj (length (heap w0) + i)) [0; 1; 2; 3; 4; 5]%nat ∧
    PikaKeyboard.powerHitKeyIsDownPrevious d = false.
Proof.
  intros Hok0. unfold PikaKeyboard.constructor.
  destruct (Key_constructor_ok (Some l) w0 Hok0) as (w1 & -> & Hok1 & Hh1).
  simpl.
  destruct (Key_constructor_ok (Some r) w1 Hok1) as (w2 & -> & Hok2 & Hh2).
  simpl.
  destruct (Key_constructor_ok (Some u) w2 Hok2) as (w3 & -> & Hok3 & Hh3).
  simpl.
  destruct (Key_constructor_ok (Some dn) w3 Hok3) as (w4 & -> & Hok4 & Hh4).
  simpl.
  destruct (Key_constructor_ok (Some p) w4 Hok4) as (w5 & -> & Hok5 & Hh5).
  simpl.
  destruct (Key_constructor_ok c w5 Hok5) as (w6 & -> & Hok6 & Hh6).
  simpl.
  eexists _, _. split; [done|]. split; [done|]. split_and!.
  - rewrite Hh6, Hh5, Hh4, Hh3, Hh2, Hh1. by rewrite <- !app_assoc.
  - unfold PikaKeyboard.keys. simpl.
    rewrite Hh5, Hh4, Hh3, Hh2, Hh1. rewrite !length_app. simpl.
    rewrite <- !Nat.add_assoc. simpl. by rewrite Nat.add_0_r.
  - done.
Qed.

Lemma PikaKeyboard_constructor_Inv base l r u dn p c w0 :
  world_ok w0 →
  ∃ s, PikaKeyboard.constructor base l r u dn p c w0 = Some s ∧ Inv s.
Proof.
  intros Hok0.
  destruct (PikaKeyboard_constructor_spec base l r u dn p c w0 Hok0)
    as (w & d & Hc & Hok & Hheap & Hkeys & _).
  exists (w, d). split; [done|]. split; [done|].
  unfold keyboard_ok. simpl. rewrite Hkeys.
  apply Forall_forall. intros x Hx.
  apply list_elem_of_fmap in Hx as (i & -> & Hi).
  eexists. split; [done|]. rewrite Hheap, length_app. simpl.
  repeat (apply elem_of_cons in Hi as [->|Hi]; [lia|]).
  by apply elem_of_nil in Hi.
Qed.

Lemma world_ok_empty : world_ok empty_world.
Proof.
  split; simpl; try (intros ? ? H; by apply elem_of_nil in H); by intros ? ?.
Qed.

(** ** One step of a keyboard in its environment *)

Lemma PikaKeyboard_getInput_ok w d :
  keyboard_ok w d →
  ∃ d', PikaKeyboard.getInput w d = Some (w, d') ∧
        PikaKeyboard.keys d' = PikaKeyboard.keys d ∧
        PikaKeyboard.powerHitKeyIsDownPrevious d' =
          default false (PikaKeyboard.read_isDown w (PikaKeyboard.powerHitKey d)).
Proof.
  intros Hd.
  destruct (keyboard_ok_deref w d Hd)
    as (kl & kr & ku & kd & kp & kc & Hl & Hr & Hu & Hdn & Hp & Hc).
  eexists. split; [by eapply getInput_eq|]. split; [done|].
  unfold PikaKeyboard.read_isDown. by rewrite Hp.
Qed.

Lemma PikaKeyboard_subscribe_spec w d :
  Inv (w, d) →
  ∃ w', PikaKeyboard.subscribe w d = Some (w', d) ∧
        Inv (w', d) ∧ heap w' = heap w.
Proof.
  intros [Hok Hd]. simpl in *.
  destruct (for_each_subscribe_spec _ w Hd Hok) as (w' & He & Hok' & Hh & _).
  exists w'. rewrite PikaKeyboard_subscribe_for_each, He.
  split_and!; [done| |done]. split; [done|]. simpl.
  eapply keyboard_ok_mono; [|exact Hd]. by rewrite Hh.
Qed.

Lemma PikaKeyboard_unsubscribe_spec w d :
  keyboard_ok w d →
  ∃ w', PikaKeyboard.unsubscribe w d = Some (w', d) ∧
        (world_ok w → world_ok w') ∧
        keyboard_ok w' d ∧
        length (heap w') = length (heap w) ∧
        (∀ x, x ∈ listeners w' ↔
              x ∈ listeners w ∧
              ∀ a, obj a ∈ PikaKeyboard.keys d →
                   x ≠ (keydown, downListener a) ∧ x ≠ (keyup, upListener a)) ∧
        ∀ a k, heap w !! a = Some k →
               heap w' !! a =
                 Some (if decide (obj a ∈ PikaKeyboard.keys d)
                       then set_up k else k).
Proof.
  intros Hd.
  destruct (for_each_unsubscribe_spec _ w Hd)
    as (w' & He & Hok' & Hlen & Hls & Hheap).
  exists w'. rewrite PikaKeyboard_unsubscribe_for_each, He.
  split_and!; try done.
  eapply keyboard_ok_mono; [|exact Hd]. by rewrite Hlen.
Qed.

Lemma step_Inv o s :
  Inv s →
  ∃ s', step o s = Some s' ∧ Inv s' ∧ evolves s.1 s'.1 ∧
        PikaKeyboard.keys s'.2 = PikaKeyboard.keys s.2.
Proof.
  destruct s as [w d]. intros [Hok Hd]. simpl in Hok, Hd.
  destruct o as [t c| | |]; simpl.
  - destruct (dispatchEvent_spec (raw t c) w Hok)
      as (w' & event' & -> & Hok' & Hls & Hlen & Hkeys).
    simpl. exists (w', d). split_and!; try done.
    + split; [done|]. simpl. eapply keyboard_ok_mono; [|exact Hd]. by rewrite Hlen.
    + split; simpl; [by rewrite Hlen|].
      intros a k Hk. destruct (Hkeys a k Hk) as (k' & Hk' & Hafter).
      exists k'. split; [done|]. by eapply key_after_value.
  - destruct (PikaKeyboard_getInput_ok w d Hd) as (d' & -> & Hkeys & _).
    exists (w, d'). split_and!; try done; [|apply evolves_refl].
    split; [done|]. unfold keyboard_ok in *. simpl. by rewrite Hkeys.
  - destruct (PikaKeyboard_subscribe_spec w d) as (w' & -> & Hinv & Hh);
      [done|].
    exists (w', d). split_and!; try done.
    split; simpl; rewrite Hh; [done|]. intros a k Hk. by exists k.
  - destruct (PikaKeyboard_unsubscribe_spec w d Hd)
      as (w' & -> & Hok' & Hd' & Hlen & _ & Hheap).
    exists (w', d). split_and!; try done.
    + split; simpl; auto.
    + split; simpl; [by rewrite Hlen|].
      intros a k Hk. rewrite (Hheap a k Hk).
      eexists. split; [done|]. by case_decide.
Qed.

Lemma run_Inv ops : ∀ s,
  Inv s →
  ∃ s', run ops s = Some s' ∧ Inv s' ∧ evolves s.1 s'.1 ∧
        PikaKeyboard.keys s'.2 = PikaKeyboard.keys s.2.
Proof.
  induction ops as [|o rest IH]; intros s Hs; simpl.
  - exists s. split_and!; try done. apply evolves_refl.
  - destruct (step_Inv o s Hs) as (s1 & -> & Hs1 & Hev1 & Hk1). simpl.
    destruct (IH s1 Hs1) as (s' & -> & Hs' & Hev & Hk).
    exists s'. split_and!; try done; [|congruence].
    by eapply evolves_trans.
Qed.

(** Every state a keyboard gets into, from its construction on a
    well-formed page, satisfies [Inv]; and no history gets stuck. *)
Lemma reachable_Inv base l r u dn p c w0 ops :
  world_ok w0 →
  ∃ s0 s,
    PikaKeyboard.constructor base l r u dn p c w0 = Some s0 ∧
    run ops s0 = Some s ∧ Inv s.
Proof.
  intros Hok0.
  destruct (PikaKeyboard_constructor_Inv base l r u dn p c w0 Hok0)
    as (s0 & Hc & Hinv0).
  destruct (run_Inv ops s0 Hinv0) as (s & Hrun & Hinv & _).
  by exists s0, s.
Qed.

Lemma Inv_player1_holding l r u d p c : Inv (player1_holding l r u d p c).
Proof.
  split; simpl.
  - split; simpl.
    + intros t x Hin. unfold six_listeners in Hin.
      repeat (apply elem_of_cons in Hin as [[= -> ->]|Hin]; [simpl; lia|]).
      by apply elem_of_nil in Hin.
    + intros t x Hin. unfold six_listeners in Hin.
      repeat (apply elem_of_cons in Hin as [[= -> ->]|Hin]; [simpl; auto|]).
      by apply elem_of_nil in Hin.
    + intros a k Hk.
      do 6 (destruct a as [|a]; [injection Hk as <-; simpl; by destruct l, r, u, d, p, c|]).
      done.
    + intros a k Hk.
      do 6 (destruct a as [|a]; [by injection Hk as <-|]).
      done.
    + intros a k Hk _. unfold six_listeners.
      do 6 (destruct a as [|a]; [apply list_elem_of_In; simpl; tauto|]).
      done.
  - unfold keyboard_ok. simpl.
    repeat (apply Forall_cons; split; [eexists; split; [done|simpl; lia]|]).
    apply Forall_nil_2.
Qed.

(** * The claims *)

(** ** Direction and action resolution *)

(** C2.  Whenever the left key and the right key are both down — whatever
    the state of the combined key and of every other key — [getInput()]
    returns and leaves [xDirection] at -1. *)
Theorem left_overrides_right_and_combo w d :
  keyboard_ok w d →
  PikaKeyboard.read_isDown w (PikaKeyboard.leftKey d) = Some true →
  PikaKeyboard.read_isDown w (PikaKeyboard.rightKey d) = Some true →
  ∃ d', PikaKeyboard.getInput w d = Some (w, d') ∧
        PikaKeyboard.xDirection d' = -1.
Proof.
  intros Hd Hleft Hright.
  destruct (keyboard_ok_deref w d Hd)
    as (kl & kr & ku & kd & kp & kc & Hl & Hr & Hu & Hdn & Hp & Hc).
  eexists. split; [by eapply getInput_eq|]. simpl.
  unfold PikaKeyboard.read_isDown in Hleft. rewrite Hl in Hleft.
  injection Hleft as ->. done.
Qed.

Lemma left_overrides_right_and_combo_witness :
  ∃ d', PikaKeyboard.getInput (player1_holding true true false false false true).1
          (player1_holding true true false false false true).2
        = Some ((player1_holding true true false false false true).1, d') ∧
        PikaKeyboard.xDirection d' = -1.
Proof.
  apply left_overrides_right_and_combo.
  - apply Inv_player1_holding.
  - reflexivity.
  - reflexivity.
Defined.

(** C4.  With the combined down-right key down and the left, right, up
    and down keys all up, [getInput()] gives [xDirection = 1] and
    [yDirection = 1].  With the combined key up, that pair of values needs
    the right key and the down key to be down together: the down key alone
    gives (0, 1) and the right key alone gives (1, 0). *)
Theorem combo_alias w d :
  keyboard_ok w d →
  ∃ d', PikaKeyboard.getInput w d = Some (w, d') ∧
    let isDown r := PikaKeyboard.read_isDown w (r d) in
    let x := PikaKeyboard.xDirection d' in
    let y := PikaKeyboard.yDirection d' in
    (isDown PikaKeyboard.downRightKey = Some true →
     isDown PikaKeyboard.leftKey = Some false →
     isDown PikaKeyboard.rightKey = Some false →
     isDown PikaKeyboard.upKey = Some false →
     isDown PikaKeyboard.downKey = Some false →
     x = 1 ∧ y = 1) ∧
    (isDown PikaKeyboard.downRightKey = Some false →
     (x = 1 ∧ y = 1 →
      isDown PikaKeyboard.rightKey = Some true ∧
      isDown PikaKeyboard.downKey = Some true) ∧
     (isDown PikaKeyboard.leftKey = Some false →
      isDown PikaKeyboard.upKey = Some false →
      isDown PikaKeyboard.rightKey = Some false →
      isDown PikaKeyboard.downKey = Some true →
      x = 0 ∧ y = 1) ∧
     (isDown PikaKeyboard.leftKey = Some false →
      isDown PikaKeyboard.upKey = Some false →
      isDown PikaKeyboard.rightKey = Some true →
      isDown PikaKeyboard.downKey = Some false →
      x = 1 ∧ y = 0)).
Proof.
  intros Hd.
  destruct (keyboard_ok_deref w d Hd)
    as (kl & kr & ku & kd & kp & kc & Hl & Hr & Hu & Hdn & Hp & Hc).
  eexists. split; [by eapply getInput_eq|].
  unfold PikaKeyboard.read_isDown. rewrite Hl, Hr, Hu, Hdn, Hc. simpl.
  destruct (isDown kl), (isDown kr), (isDown ku),
    (isDown kd), (isDown kc); simpl;
    repeat split; intros; try done; try lia; destruct_and?; try lia.
Qed.

Lemma combo_alias_witness :
  ∃ d', PikaKeyboard.getInput
          (player1_holding false false false false false true).1
          (player1_holding false false false false false true).2
        = Some ((player1_holding false false false false false true).1, d') ∧
        PikaKeyboard.xDirection d' = 1 ∧ PikaKeyboard.yDirection d' = 1.
Proof.
  destruct (combo_alias
              (player1_holding false false false false false true).1
              (player1_holding false false false false false true).2)
    as (d' & Hget & Hcombo & _).
  - apply Inv_player1_holding.
  - exists d'. split; [exact Hget|]. by apply Hcombo.
Defined.

(** C10.  A [getInput()] call that returns leaves the window and every
    key object as they were (code, [isDown] and [isUp] of every key) and
    keeps the six key references of the keyboard; only [xDirection],
    [yDirection], [powerHit] and [powerHitKeyIsDownPrevious] are written.
    On a keyboard whose six keys exist the call does return. *)
Theorem getInput_only_reads_keys w d :
  (keyboard_ok w d → is_Some (PikaKeyboard.getInput w d)) ∧
  ∀ w' d',
    PikaKeyboard.getInput w d = Some (w', d') →
    listeners w' = listeners w ∧
    heap w' = heap w ∧
    (∀ r, deref w' r = deref w r) ∧
    PikaKeyboard.leftKey d' = PikaKeyboard.leftKey d ∧
    PikaKeyboard.rightKey d' = PikaKeyboard.rightKey d ∧
    PikaKeyboard.upKey d' = PikaKeyboard.upKey d ∧
    PikaKeyboard.downKey d' = PikaKeyboard.downKey d ∧
    PikaKeyboard.powerHitKey d' = PikaKeyboard.powerHitKey d ∧
    PikaKeyboard.downRightKey d' = PikaKeyboard.downRightKey d.
Proof.
  split.
  - intros Hd. destruct (PikaKeyboard_getInput_ok w d Hd) as (d' & -> & _).
    by eexists.
  - intros w' d' Hget. unfold PikaKeyboard.getInput in Hget.
    destruct (PikaKeyboard.read_xDirection w d) as [x|]; [|done].
    destruct (PikaKeyboard.read_yDirection w d) as [y|]; [|done].
    destruct (PikaKeyboard.read_isDown w (PikaKeyboard.powerHitKey d))
      as [b|]; [|done].
    simpl in Hget. injection Hget as <- <-. by split_and!.
Qed.

Lemma getInput_only_reads_keys_witness :
  ∃ d', PikaKeyboard.getInput
          (player1_holding false true false false true false).1
          (player1_holding false true false false true false).2
        = Some ((player1_holding false true false false true false).1, d') ∧
        PikaKeyboard.keys d' =
          PikaKeyboard.keys (player1_holding false true false false true false).2.
Proof.
  destruct (getInput_only_reads_keys
              (player1_holding false true false false true false).1
              (player1_holding false true false false true false).2)
    as [Hret Hframe].
  destruct Hret as [[w' d'] Hget]; [apply Inv_player1_holding|].
  destruct (Hframe w' d' Hget) as (_ & Hheap & _ & Hl & Hr & Hu & Hd & Hp & Hc).
  exists d'. split; [|unfold PikaKeyboard.keys; congruence].
  rewrite Hget. vm_compute in Hget. by injection Hget as <- <-.
Defined.

(** ** The scenario *)

(** C8.  A keyboard constructed with left "A", right "D", up "W", down
    "S", action "Space" and no combined key on an empty page: after "A" is
    pressed [getInput()] leaves (-1, 0, 0); after "Space" is pressed as
    well, (-1, 0, 1); the next call with both still held, (-1, 0, 0);
    after both are released, (0, 0, 0). *)
Theorem scenario_left_then_action base :
  ∃ s0 s1 s2 s3 s4,
    PikaKeyboard.constructor base "A" "D" "W" "S" "Space" None empty_world
      = Some s0 ∧
    run [Raw keydown "A"; GetInput] s0 = Some s1 ∧
    PikaKeyboard.snapshot s1.2 = (-1, 0, 0) ∧
    run [Raw keydown "Space"; GetInput] s1 = Some s2 ∧
    PikaKeyboard.snapshot s2.2 = (-1, 0, 1) ∧
    run [GetInput] s2 = Some s3 ∧
    PikaKeyboard.snapshot s3.2 = (-1, 0, 0) ∧
    run [Raw keyup "A"; Raw keyup "Space"; GetInput] s3 = Some s4 ∧
    PikaKeyboard.snapshot s4.2 = (0, 0, 0).
Proof.
  eexists _, _, _, _, _.
  split; [vm_compute; reflexivity|].
  split; [vm_compute; reflexivity|].
  split; [reflexivity|].
  split; [vm_compute; reflexivity|].
  split; [reflexivity|].
  split; [vm_compute; reflexivity|].
  split; [reflexivity|].
  split; [vm_compute; reflexivity|].
  reflexivity.
Qed.

(** ** The action pulse *)

Lemma step_keeps_keyboard o s s1 :
  step o s = Some s1 → o ≠ GetInput → s1.2 = s.2.
Proof.
  destruct s as [w d]. destruct o as [t c| | |]; simpl; intros Hs Hne.
  - destruct (dispatchEvent (raw t c) w) as [[w1 e1]|]; simpl in Hs; [|done].
    by injection Hs as <-.
  - done.
  - rewrite PikaKeyboard_subscribe_for_each in Hs.
    destruct (for_each_key _ _ _); simpl in Hs; [|done]. by injection Hs as <-.
  - rewrite PikaKeyboard_unsubscribe_for_each in Hs.
    destruct (for_each_key _ _ _); simpl in Hs; [|done]. by injection Hs as <-.
Qed.

Lemma getInput_pulse w d :
  keyboard_ok w d →
  ∃ h d',
    PikaKeyboard.read_isDown w (PikaKeyboard.powerHitKey d) = Some h ∧
    PikaKeyboard.getInput w d = Some (w, d') ∧
    PikaKeyboard.powerHit d' =
      (if negb (PikaKeyboard.powerHitKeyIsDownPrevious d) && h then 1 else 0) ∧
    PikaKeyboard.powerHitKeyIsDownPrevious d' = h.
Proof.
  intros Hd.
  destruct (keyboard_ok_deref w d Hd)
    as (kl & kr & ku & kd & kp & kc & Hl & Hr & Hu & Hdn & Hp & Hc).
  exists (isDown kp). eexists. split_and!.
  - unfold PikaKeyboard.read_isDown. by rewrite Hp.
  - by eapply getInput_eq.
  - done.
  - done.
Qed.

Lemma rising_edges_held hs :
  Forall (λ h, h = true) hs → rising_edges true hs = repeat 0 (length hs).
Proof.
  induction 1 as [|h hs -> _ IH]; simpl; [done|]. by rewrite IH.
Qed.

Lemma captures_spec ops : ∀ s,
  Inv s →
  ∃ cs s',
    captures ops s = Some (cs, s') ∧ Inv s' ∧
    map pulse cs =
      rising_edges (PikaKeyboard.powerHitKeyIsDownPrevious s.2) (map held cs) ∧
    PikaKeyboard.powerHitKeyIsDownPrevious s'.2 =
      default (PikaKeyboard.powerHitKeyIsDownPrevious s.2) (last (map held cs)).
Proof.
  induction ops as [|o rest IH]; intros s Hs; simpl.
  - by exists [], s.
  - assert (o = GetInput ∨ o ≠ GetInput) as [->|Hne]
      by (destruct o; [right|left|right|right]; done).
    + destruct s as [w d]. destruct Hs as [Hok Hd]. simpl in Hok, Hd.
      destruct (getInput_pulse w d Hd) as (h & d' & Hh & Hget & Hhit & Hprev).
      simpl. rewrite Hget. simpl.
      destruct (IH (w, d')) as (cs & s' & -> & Hs' & Hpulse & Hlast).
      { split; [done|]. simpl.
        destruct (PikaKeyboard_getInput_ok w d Hd) as (d'' & Hget' & Hk & _).
        assert (d'' = d') as -> by congruence.
        unfold keyboard_ok. by rewrite Hk. }
      simpl. rewrite Hh. simpl.
      eexists _, s'. split_and!; [done|done|..]; simpl in *.
      * rewrite Hhit. f_equal. by rewrite Hpulse, Hprev.
      * rewrite Hlast, Hprev, last_cons. by destruct (last (map held cs)).
    + destruct (step_Inv o s Hs) as (s1 & Hstep & Hs1 & _).
      rewrite Hstep. simpl.
      destruct (IH s1 Hs1) as (cs & s' & -> & Hs' & Hpulse & Hlast).
      simpl. rewrite (step_keeps_keyboard _ _ _ Hstep Hne) in Hpulse, Hlast.
      exists cs, s'. by destruct o.
Qed.

(** C1, as it stands, fails: the key goes down, one [getInput()] sees it,
    then it is released and pressed again before the next [getInput()].
    The key has gone from up to down, and the first call after that press
    leaves [powerHit] at 0. *)
Lemma repress_between_two_frames_gives_no_pulse :
  ∃ s0 s1 s2 s3,
    PikaKeyboard.constructor zero_input "A" "D" "W" "S" "Space" None
      empty_world = Some s0 ∧
    run [Raw keydown "Space"; GetInput; Raw keyup "Space"] s0 = Some s1 ∧
    PikaKeyboard.read_isDown s1.1 (PikaKeyboard.powerHitKey s1.2)
      = Some false ∧
    step (Raw keydown "Space") s1 = Some s2 ∧
    PikaKeyboard.read_isDown s2.1 (PikaKeyboard.powerHitKey s2.2)
      = Some true ∧
    step GetInput s2 = Some s3 ∧
    PikaKeyboard.powerHit s3.2 = 0 ∧
    PikaKeyboard.powerHit s3.2 ≠ 1.
Proof.
  eexists _, _, _, _.
  split; [vm_compute; reflexivity|].
  split; [vm_compute; reflexivity|].
  split; [reflexivity|].
  split; [vm_compute; reflexivity|].
  split; [reflexivity|].
  split; [vm_compute; reflexivity|].
  split; [reflexivity|done].
Qed.

Lemma PikaKeyboard_constructor_latch base l r u dn p c w0 s :
  PikaKeyboard.constructor base l r u dn p c w0 = Some s →
  PikaKeyboard.powerHitKeyIsDownPrevious s.2 = false.
Proof.
  unfold PikaKeyboard.constructor.
  repeat (rewrite Key_constructor_eq; simpl).
  by intros [= <-].
Qed.

(** C1, amended.  Take any history of a keyboard (raw events and method
    calls) and look at its [getInput()] calls.  The pulses are the rising
    edges of the samples of the action key taken by those calls, counted
    from [powerHitKeyIsDownPrevious], which holds the sample of the last
    call and which the constructor sets to false.  So when the key is
    down at each of the N >= 1 calls, [powerHit] is 0 on every call after
    the first, and on the first it is 1 exactly when the preceding call
    saw the key up or, on a keyboard that has just been constructed,
    there was none: at most one pulse.  A release and a new press that
    both fall between two calls give no new pulse. *)
Theorem one_pulse_per_sampled_press s ops :
  Inv s →
  ∃ cs s',
    captures ops s = Some (cs, s') ∧
    map pulse cs =
      rising_edges (PikaKeyboard.powerHitKeyIsDownPrevious s.2) (map held cs) ∧
    PikaKeyboard.powerHitKeyIsDownPrevious s'.2 =
      default (PikaKeyboard.powerHitKeyIsDownPrevious s.2) (last (map held cs)) ∧
    (Forall (λ c, held c = true) cs →
     ∀ c rest, cs = c :: rest →
       pulse c = (if PikaKeyboard.powerHitKeyIsDownPrevious s.2 then 0 else 1) ∧
       Forall (λ c', pulse c' = 0) rest ∧
       PikaKeyboard.powerHitKeyIsDownPrevious s'.2 = true) ∧
    (∀ base l r u dn p combo w0,
       PikaKeyboard.constructor base l r u dn p combo w0 = Some s →
       PikaKeyboard.powerHitKeyIsDownPrevious s.2 = false ∧
       (Forall (λ c, held c = true) cs →
        ∀ c rest, cs = c :: rest →
          pulse c = 1 ∧ Forall (λ c', pulse c' = 0) rest)).
Proof.
  intros Hs.
  destruct (captures_spec ops s Hs) as (cs & s' & Hc & _ & Hpulse & Hlast).
  assert (Hrun : Forall (λ c, held c = true) cs →
            ∀ c rest, cs = c :: rest →
              pulse c =
                (if PikaKeyboard.powerHitKeyIsDownPrevious s.2 then 0 else 1) ∧
              Forall (λ c', pulse c' = 0) rest ∧
              PikaKeyboard.powerHitKeyIsDownPrevious s'.2 = true).
  { intros Hheld c rest ->. simpl in *.
    apply Forall_cons in Hheld as [Hc0 Hrest].
    injection Hpulse as Hp0 Hprest. rewrite Hc0 in *.
    assert (Hall : Forall (λ h, h = true) (map held rest)).
    { clear -Hrest. induction Hrest; simpl; by constructor. }
    split_and!.
    - rewrite Hp0. by destruct (PikaKeyboard.powerHitKeyIsDownPrevious s.2).
    - rewrite rising_edges_held in Hprest by done.
      clear -Hprest. revert Hprest. generalize (length (map held rest)).
      induction rest as [|c' rest IH]; intros n Hn; [constructor|].
      destruct n as [|n]; [done|]. simpl in Hn. injection Hn as Hc' Hn.
      constructor; [done|]. by eapply IH.
    - rewrite Hlast, last_cons.
      destruct (last (map held rest)) as [h|] eqn:Hl; [|done]. simpl.
      apply last_Some in Hl as (l' & Hl).
      rewrite Hl in Hall. apply Forall_app in Hall as [_ Hall].
      by apply Forall_inv in Hall. }
  exists cs, s'. split_and!; [done..|].
  intros base l r u dn p combo w0 Hnew.
  pose proof (PikaKeyboard_constructor_latch _ _ _ _ _ _ _ _ _ Hnew) as Hlatch.
  split; [done|]. intros Hheld c rest Hcs.
  destruct (Hrun Hheld c rest Hcs) as (Hfirst & Hothers & _).
  rewrite Hlatch in Hfirst. done.
Qed.

Lemma one_pulse_per_sampled_press_witness :
  ∃ s0 cs s',
    PikaKeyboard.constructor zero_input "KeyD" "KeyG" "KeyR" "KeyV" "KeyZ"
      (Some "KeyF"%string) empty_world = Some s0 ∧
    captures [Raw keydown "KeyZ"; GetInput; Raw keydown "KeyD"; GetInput;
              GetInput] s0 = Some (cs, s') ∧
    map pulse cs = [1; 0; 0].
Proof.
  destruct (PikaKeyboard_constructor_Inv zero_input "KeyD" "KeyG" "KeyR"
              "KeyV" "KeyZ" (Some "KeyF"%string) empty_world world_ok_empty)
    as (s0 & Hnew & Hinv).
  destruct (one_pulse_per_sampled_press s0
              [Raw keydown "KeyZ"; GetInput; Raw keydown "KeyD"; GetInput;
               GetInput] Hinv)
    as (cs & s' & Hc & _ & _ & _ & Hfresh).
  destruct (Hfresh _ _ _ _ _ _ _ _ Hnew) as [_ Hpulses].
  exists s0, cs, s'. split; [exact Hnew|]. split; [exact Hc|].
  vm_compute in Hnew. injection Hnew as <-.
  vm_compute in Hc. injection Hc as <- <-.
  destruct (Hpulses ltac:(repeat constructor) _ _ eq_refl) as [H1 H0].
  reflexivity.
Defined.

(** ** A keyboard that is not subscribed *)

Lemma silent_is_up w r :
  world_ok w → allocated w r → silent w r → is_up w r.
Proof.
  intros Hok (a & -> & Ha) Hsilent.
  destruct (lookup_lt_is_Some_2 _ _ Ha) as [k Hk].
  exists k. split; [done|].
  assert (Hd : isDown k = false).
  { destruct (isDown k) eqn:Hdown; [|done]. exfalso.
    by eapply (Hsilent _ _ (ok_listening w Hok a k Hk Hdown)). }
  split; [done|].
  pose proof (ok_exclusive w Hok a k Hk) as He. rewrite Hd in He.
  by destruct (isUp k).
Qed.

Lemma unsubscribed_all_up s :
  Inv s → unsubscribed s.1 s.2 → all_up s.1 s.2.
Proof.
  intros [Hok Hd] Hu. unfold all_up, unsubscribed, keyboard_ok in *.
  apply Forall_forall. intros r Hr.
  apply silent_is_up; [done|..].
  - by eapply Forall_forall in Hd.
  - by eapply Forall_forall in Hu.
Qed.

Lemma unsubscribe_silences w d :
  Inv (w, d) →
  ∃ w1, PikaKeyboard.unsubscribe w d = Some (w1, d) ∧
        Inv (w1, d) ∧ unsubscribed w1 d ∧ all_up w1 d.
Proof.
  intros [Hok Hd]. simpl in Hok, Hd.
  destruct (PikaKeyboard_unsubscribe_spec w d Hd)
    as (w1 & Hun & Hok1 & Hd1 & Hlen & Hls & Hheap).
  assert (Hu : unsubscribed w1 d).
  { apply Forall_forall. intros r Hr t l Hin Heq. subst r.
    apply Hls in Hin as [Hin Hnot].
    destruct (Hnot _ Hr) as [Hnd Hnu].
    destruct (ok_paired w Hok t l Hin); done. }
  exists w1. split_and!; [done|by split; auto|done|].
  by apply (unsubscribed_all_up (w1, d)); [split; auto|].
Qed.

Lemma passive_step_unsubscribed o s :
  Inv s → unsubscribed s.1 s.2 → passive o = true →
  ∃ s1, step o s = Some s1 ∧ Inv s1 ∧ unsubscribed s1.1 s1.2 ∧
        PikaKeyboard.keys s1.2 = PikaKeyboard.keys s.2 ∧
        ∀ r, r ∈ PikaKeyboard.keys s.2 → deref s1.1 r = deref s.1 r.
Proof.
  intros Hs Hu Hp.
  destruct (step_Inv o s Hs) as (s1 & Hstep & Hs1 & _ & Hkeys).
  exists s1. split; [done|]. split; [done|].
  destruct s as [w d]. destruct Hs as [Hok Hd]. simpl in *.
  destruct o as [t c| | |]; simpl in *; try done.
  - destruct (dispatchEvent_spec (raw t c) w Hok)
      as (w' & event' & He & _ & Hls & Hlen & Hafter).
    rewrite He in Hstep. simpl in Hstep. injection Hstep as <-. simpl.
    split_and!; [|done|].
    + unfold unsubscribed, silent in *. by rewrite Hls.
    + intros r Hr.
      pose proof (proj1 (Forall_forall _ _) Hd r Hr) as (a & -> & Ha).
      pose proof (proj1 (Forall_forall _ _) Hu _ Hr) as Hsilent.
      destruct (lookup_lt_is_Some_2 _ _ Ha) as [k Hk]. simpl.
      destruct (Hafter a k Hk) as (k' & -> & Hcase). rewrite Hk. f_equal.
      destruct (key_after_cases _ _ _ _ _ Hcase) as [->|[(_&Hin&_)|(_&Hin&_)]];
        [done|..]; by destruct (Hsilent _ _ Hin).
  - destruct (PikaKeyboard_getInput_ok w d Hd) as (d' & Hget & Hk & _).
    rewrite Hget in Hstep. injection Hstep as <-. simpl.
    split_and!; [|done..]. unfold unsubscribed in *. by rewrite Hk.
Qed.

Lemma passive_run_unsubscribed ops : ∀ s,
  Inv s → unsubscribed s.1 s.2 → forallb passive ops = true →
  ∃ s1, run ops s = Some s1 ∧ Inv s1 ∧ unsubscribed s1.1 s1.2 ∧
        PikaKeyboard.keys s1.2 = PikaKeyboard.keys s.2 ∧
        ∀ r, r ∈ PikaKeyboard.keys s.2 → deref s1.1 r = deref s.1 r.
Proof.
  induction ops as [|o rest IH]; intros s Hs Hu Hp; simpl in *.
  - by exists s.
  - apply andb_prop in Hp as [Ho Hrest].
    destruct (passive_step_unsubscribed o s Hs Hu Ho)
      as (s1 & -> & Hs1 & Hu1 & Hk1 & Hd1). simpl.
    destruct (IH s1 Hs1 Hu1 Hrest) as (s2 & -> & Hs2 & Hu2 & Hk2 & Hd2).
    exists s2. split_and!; [done..|congruence|].
    intros r Hr. rewrite Hd2 by by rewrite Hk1. by apply Hd1.
Qed.

Lemma getInput_all_up w d :
  all_up w d →
  ∃ d', PikaKeyboard.getInput w d = Some (w, d') ∧
        PikaKeyboard.snapshot d' = (0, 0, 0).
Proof.
  unfold all_up, PikaKeyboard.keys. intros H.
  apply Forall_cons in H as [(kl & Hl & Hld & _) H].
  apply Forall_cons in H as [(kr & Hr & Hrd & _) H].
  apply Forall_cons in H as [(ku & Hu & Hud & _) H].
  apply Forall_cons in H as [(kd & Hd & Hdd & _) H].
  apply Forall_cons in H as [(kp & Hp & Hpd & _) H].
  apply Forall_cons in H as [(kc & Hc & Hcd & _) H].
  eexists. split; [by eapply getInput_eq|].
  unfold PikaKeyboard.snapshot. simpl.
  rewrite Hld, Hrd, Hud, Hdd, Hpd, Hcd. simpl.
  by rewrite andb_false_r.
Qed.

(** C3.  On a keyboard in a well-formed page, [unsubscribe()] returns and
    leaves every key with [isDown = false] and [isUp = true].  From there
    — and from any state in which none of the keyboard's listeners is on
    the window, the only states a keyboard is in without being
    subscribed — raw events and [getInput()] calls in any number return,
    leave the six keys as they were, and a [getInput()] after them leaves
    (0, 0, 0). *)
Theorem neutral_when_not_subscribed s ops :
  Inv s →
  forallb passive ops = true →
  ∃ w1,
    PikaKeyboard.unsubscribe s.1 s.2 = Some (w1, s.2) ∧
    all_up w1 s.2 ∧
    unsubscribed w1 s.2 ∧
    ∀ s1,
      s1 = (w1, s.2) ∨ (s1 = s ∧ unsubscribed s.1 s.2) →
      ∃ s2 s3,
        run ops s1 = Some s2 ∧
        (∀ r, r ∈ PikaKeyboard.keys s.2 → deref s2.1 r = deref s1.1 r) ∧
        all_up s2.1 s2.2 ∧
        step GetInput s2 = Some s3 ∧
        s3.1 = s2.1 ∧
        PikaKeyboard.snapshot s3.2 = (0, 0, 0).
Proof.
  intros Hs Hp. destruct s as [w d].
  destruct (unsubscribe_silences w d Hs) as (w1 & Hun & Hs1 & Hu1 & Hup1).
  exists w1. simpl. split_and!; [done..|].
  assert (Hgo : ∀ s1, Inv s1 → unsubscribed s1.1 s1.2 →
            PikaKeyboard.keys s1.2 = PikaKeyboard.keys d →
            ∃ s2 s3,
              run ops s1 = Some s2 ∧
              (∀ r, r ∈ PikaKeyboard.keys d → deref s2.1 r = deref s1.1 r) ∧
              all_up s2.1 s2.2 ∧
              step GetInput s2 = Some s3 ∧
              s3.1 = s2.1 ∧
              PikaKeyboard.snapshot s3.2 = (0, 0, 0)).
  { intros s1 Hi1 Hq1 Hk1.
    destruct (passive_run_unsubscribed ops s1 Hi1 Hq1 Hp)
      as (s2 & Hrun & Hi2 & Hq2 & Hk2 & Hd2).
    pose proof (unsubscribed_all_up s2 Hi2 Hq2) as Hup2.
    destruct (getInput_all_up _ _ Hup2) as (d3 & Hget & Hsnap).
    exists s2, (s2.1, d3). split_and!; try done.
    intros r Hr. apply Hd2. by rewrite Hk1. }
  intros s1 [->|[-> Hq]]; by apply Hgo.
Qed.

Lemma neutral_when_not_subscribed_witness :
  ∃ w1 s2 s3,
    PikaKeyboard.unsubscribe
      (player1_holding true false false true true false).1
      (player1_holding true false false true true false).2
      = Some (w1, (player1_holding true false false true true false).2) ∧
    run [Raw keydown "KeyG"; GetInput; Raw keydown "KeyZ"]
      (w1, (player1_holding true false false true true false).2) = Some s2 ∧
    step GetInput s2 = Some s3 ∧
    PikaKeyboard.snapshot s3.2 = (0, 0, 0).
Proof.
  destruct (neutral_when_not_subscribed
              (player1_holding true false false true true false)
              [Raw keydown "KeyG"; GetInput; Raw keydown "KeyZ"])
    as (w1 & Hun & _ & _ & Hafter).
  - apply Inv_player1_holding.
  - reflexivity.
  - destruct (Hafter _ (or_introl eq_refl))
      as (s2 & s3 & Hrun & _ & _ & Hget & _ & Hsnap).
    by exists w1, s2, s3.
Defined.

(** ** [unsubscribe()] twice *)

Lemma Key_unsubscribe_fixed w r :
  is_up w r → silent w r → Key.unsubscribe r w = Some w.
Proof.
  intros (k & Hk & Hdown & Hup) Hsilent.
  destruct r as [|a]; [done|]. simpl in Hk.
  destruct (Key_unsubscribe_eq w (obj a)) as (a' & k' & [= <-] & Hk' & ->).
  { exists a. split; [done|]. by eapply lookup_lt_Some. }
  assert (k' = k) as -> by congruence.
  f_equal. destruct w as [ls h]. unfold store, on_window. simpl in *.
  f_equal.
  - rewrite (removeEventListener_absent keydown (downListener a) ls).
    + apply removeEventListener_absent. intros Hin.
      by eapply (Hsilent _ _ Hin).
    + intros Hin. by eapply (Hsilent _ _ Hin).
  - apply list_insert_id. rewrite Hk. f_equal.
    destruct k as [v kd ku]. simpl in *. by subst.
Qed.

Lemma for_each_unsubscribe_fixed rs w :
  Forall (is_up w) rs → Forall (silent w) rs →
  for_each_key Key.unsubscribe rs w = Some w.
Proof.
  induction rs as [|r rest IH]; intros Hup Hsilent; simpl; [done|].
  apply Forall_cons in Hup as [Hr Hup].
  apply Forall_cons in Hsilent as [Hsr Hsilent].
  rewrite Key_unsubscribe_fixed by done. simpl. by apply IH.
Qed.

(** C9.  [unsubscribe()] on a keyboard in a well-formed page returns; a
    second call returns too and gives back the very state the first one
    left: every key up and none of the keyboard's listeners on the
    window.  On a keyboard that is already unsubscribed the call changes
    nothing. *)
Theorem unsubscribe_idempotent s :
  Inv s →
  ∃ w1,
    PikaKeyboard.unsubscribe s.1 s.2 = Some (w1, s.2) ∧
    PikaKeyboard.unsubscribe w1 s.2 = Some (w1, s.2) ∧
    all_up w1 s.2 ∧
    unsubscribed w1 s.2 ∧
    (unsubscribed s.1 s.2 → w1 = s.1).
Proof.
  destruct s as [w d]. intros Hs. simpl.
  destruct (unsubscribe_silences w d Hs) as (w1 & Hun & Hs1 & Hu1 & Hup1).
  exists w1. split_and!; [done| |done|done|].
  - rewrite PikaKeyboard_unsubscribe_for_each.
    by rewrite for_each_unsubscribe_fixed.
  - intros Hu.
    pose proof (unsubscribed_all_up (w, d) Hs Hu) as Hup.
    rewrite PikaKeyboard_unsubscribe_for_each in Hun.
    rewrite for_each_unsubscribe_fixed in Hun by done.
    simpl in Hun. by injection Hun as <-.
Qed.

Lemma unsubscribe_idempotent_witness :
  ∃ w1,
    PikaKeyboard.unsubscribe
      (player1_holding false true true false true true).1
      (player1_holding false true true false true true).2
      = Some (w1, (player1_holding false true true false true true).2) ∧
    PikaKeyboard.unsubscribe w1
      (player1_holding false true true false true true).2
      = Some (w1, (player1_holding false true true false true true).2) ∧
    w1 = {| listeners := []; heap := heap player1.1 |}.
Proof.
  destruct (unsubscribe_idempotent
              (player1_holding false true true false true true))
    as (w1 & Hun & Hagain & _).
  - apply Inv_player1_holding.
  - exists w1. split; [exact Hun|]. split; [exact Hagain|].
    vm_compute in Hun. by injection Hun as <-.
Defined.

(** ** Operations on single keys *)

Lemma key_moves_trans k k1 k2 :
  key_moves k k1 → key_moves k1 k2 → key_moves k k2.
Proof.
  intros H1 H2.
  destruct H1 as [| |c Hc]; [done|..]; destruct H2 as [| |c2 Hc2];
    simpl in *.
  - apply moves_release.
  - change (set_up (set_up k)) with (set_up k).
    apply moves_release.
  - change (set_down (set_up k)) with (set_down k).
    by eapply moves_press.
  - by eapply moves_press.
  - change (set_up (set_down k)) with (set_up k).
    apply moves_release.
  - change (set_down (set_down k)) with (set_down k).
    by eapply moves_press.
Qed.

Lemma key_moves_exclusive k k1 :
  key_moves k k1 →
  isDown k = negb (isUp k) → isDown k1 = negb (isUp k1).
Proof. by destruct 1. Qed.

Lemma key_moves_null k k1 :
  key_moves k k1 → k = fresh_key None → k1 = fresh_key None.
Proof. intros [| |c Hc] ->; done. Qed.

Lemma moved_refl w : moved w w.
Proof. split; [done|]. intros a k Hk. eauto with keyboard. Qed.

Lemma moved_trans w w1 w2 : moved w w1 → moved w1 w2 → moved w w2.
Proof.
  intros [Hl1 Hm1] [Hl2 Hm2]. split; [congruence|].
  intros a k Hk. destruct (Hm1 a k Hk) as (k1 & Hk1 & Hmv1).
  destruct (Hm2 a k1 Hk1) as (k2 & Hk2 & Hmv2).
  exists k2. split; [done|]. by eapply key_moves_trans.
Qed.

Lemma moved_store a k k1 w :
  heap w !! a = Some k → key_moves k k1 → moved w (store a k1 w).
Proof.
  intros Hk Hmv. split; [apply store_length|].
  intros b kb Hb. destruct (decide (a = b)) as [->|Hne].
  - rewrite store_lookup_eq by by eapply lookup_lt_Some.
    exists k1. split; [done|]. congruence.
  - rewrite store_lookup_ne by done. eauto with keyboard.
Qed.

#[local] Hint Resolve moved_refl moved_store : keyboard.

Lemma invoke_moved l event w w1 event1 :
  invoke l event w = Some (w1, event1) → moved w w1.
Proof.
  destruct l as [a|a]; simpl.
  - unfold Key.downHandler.
    destruct (heap w !! a) as [k|] eqn:Hk; simpl; [|done].
    destruct (strict_equal (code event) (value k)) eqn:Hm;
      intros [= <- <-]; eauto with keyboard.
  - unfold Key.upHandler.
    destruct (heap w !! a) as [k|] eqn:Hk; simpl; [|done].
    destruct (strict_equal (code event) (value k)) eqn:Hm;
      intros [= <- <-]; eauto with keyboard.
Qed.

Lemma deliver_moved ls : ∀ event w w1 event1,
  deliver ls event w = Some (w1, event1) → moved w w1.
Proof.
  induction ls as [|[t l] rest IH]; intros event w w1 event1; simpl.
  - intros [= <- <-]. apply moved_refl.
  - case_decide; [|by apply IH].
    destruct (invoke l event w) as [[w' event']|] eqn:Hi; simpl; [|done].
    intros Hrest. eapply moved_trans; [by eapply invoke_moved|by eapply IH].
Qed.

Lemma moved_grown w w1 : moved w w1 → grown w w1.
Proof.
  intros [Hlen Hm]. split; [done|].
  intros a k1 Hk1. left. apply lookup_lt_is_Some. rewrite <- Hlen.
  by eapply lookup_lt_Some.
Qed.

Lemma key_step_grown o w w1 : key_step o w = Some w1 → grown w w1.
Proof.
  destruct o as [v|a event|a event|r|r|event]; simpl.
  - rewrite Key_constructor_eq. simpl. intros [= <-]. split; simpl.
    + intros a k Hk. exists k. split; [|constructor].
      rewrite lookup_app_l; [done|]. by eapply lookup_lt_Some.
    + intros a k1 Hk1. apply lookup_app_Some in Hk1 as [Hk1|[_ Hk1]].
      * left. by eexists.
      * right. exists v. apply list_lookup_singleton_Some in Hk1.
        by destruct Hk1.
  - destruct (Key.downHandler a event w) as [[w' e']|] eqn:Hh;
      simpl; [|done].
    intros [= <-]. apply moved_grown.
    by eapply (invoke_moved (downListener a)).
  - destruct (Key.upHandler a event w) as [[w' e']|] eqn:Hh;
      simpl; [|done].
    intros [= <-]. apply moved_grown.
    by eapply (invoke_moved (upListener a)).
  - unfold Key.subscribe.
    destruct (address w r) as [a|]; simpl; [|done].
    intros [= <-]. apply moved_grown. split; [done|].
    intros b k Hk. exists k. split; [done|constructor].
  - unfold Key.unsubscribe.
    destruct (address w r) as [a|]; simpl; [|done].
    destruct (heap w !! a) as [k|] eqn:Hk; simpl; [|done].
    intros [= <-]. apply moved_grown.
    apply (moved_store a k (set_up k)
             (on_window (Key.unsubscribe_calls a) w)); [done|].
    apply moves_release.
  - unfold dispatchEvent.
    destruct (deliver (listeners w) event w) as [[w' e']|] eqn:Hd;
      simpl; [|done].
    intros [= <-]. apply moved_grown. by eapply deliver_moved.
Qed.

Lemma grown_exclusive w w1 : grown w w1 → exclusive w → exclusive w1.
Proof.
  intros [Hold Hnew] Hex a k1 Hk1.
  destruct (Hnew a k1 Hk1) as [[k Hk]|[v ->]]; [|done].
  destruct (Hold a k Hk) as (k1' & Hk1' & Hmv).
  assert (k1' = k1) as -> by congruence.
  eapply key_moves_exclusive; [done|]. by eapply Hex.
Qed.

(** ** The state of a key *)

(** C5.  From a world in which every key has [isDown = !isUp] — the
    empty page is one — any sequence of constructions, direct calls of
    the press and release handlers, [subscribe()], [unsubscribe()] and
    deliveries of events by the window that runs to its end leaves, after
    each operation, every key with [isDown = !isUp]. *)
Theorem isDown_is_not_isUp ops : ∀ w ws,
  exclusive w →
  key_trace ops w = Some ws →
  Forall exclusive ws.
Proof.
  induction ops as [|o rest IH]; intros w ws Hex; simpl.
  - intros [= <-]. constructor.
  - destruct (key_step o w) as [w1|] eqn:Hstep; simpl; [|done].
    destruct (key_trace rest w1) as [ws1|] eqn:Hrest; simpl; [|done].
    intros [= <-].
    assert (exclusive w1)
      by (eapply grown_exclusive; [by eapply key_step_grown|done]).
    constructor; [done|]. by eapply IH.
Qed.

Lemma isDown_is_not_isUp_witness :
  ∃ ws,
    key_trace [KNew (Some "KeyZ"%string); KDispatch (raw keydown "KeyZ");
               KRelease 0 (raw keyup "KeyZ"); KPress 0 (raw keydown "KeyZ");
               KUnsubscribe (obj 0); KSubscribe (obj 0)] empty_world
      = Some ws ∧
    Forall exclusive ws.
Proof.
  destruct (key_trace _ empty_world) as [ws|] eqn:Htrace.
  - exists ws. split; [reflexivity|].
    eapply (isDown_is_not_isUp _ empty_world); [|exact Htrace].
    intros a k Hk. destruct a; discriminate Hk.
  - vm_compute in Htrace. discriminate Htrace.
Defined.

(** ** A key with a null code *)

Lemma grown_null_key a w w1 : grown w w1 → null_key_at a w → null_key_at a w1.
Proof.
  intros [Hold _] Hq. destruct (Hold a _ Hq) as (k1 & Hk1 & Hmv).
  unfold null_key_at. rewrite Hk1. f_equal. by eapply key_moves_null.
Qed.

Lemma key_trace_null_key a ops : ∀ w ws,
  null_key_at a w → key_trace ops w = Some ws → Forall (null_key_at a) ws.
Proof.
  induction ops as [|o rest IH]; intros w ws Hq; simpl.
  - intros [= <-]. constructor.
  - destruct (key_step o w) as [w1|] eqn:Hstep; simpl; [|done].
    destruct (key_trace rest w1) as [ws1|] eqn:Hrest; simpl; [|done].
    intros [= <-].
    assert (null_key_at a w1)
      by (eapply grown_null_key; [by eapply key_step_grown|done]).
    constructor; [done|]. by eapply IH.
Qed.

(** C7.  A key constructed with a null code, at any later time (after
    any operations on it and on other keys, deliveries included): it
    still has [isDown = false] and [isUp = true]; for every event its
    press and release handlers return and change neither the world nor
    the event; and [subscribe()] and [unsubscribe()] on it return. *)
Theorem null_code_key_stays_up w0 r w1 ops ws i w event :
  Key.constructor None w0 = Some (r, w1) →
  key_trace ops w1 = Some ws →
  (w1 :: ws) !! i = Some w →
  ∃ a, r = obj a ∧
    deref w r = Some {| value := None; isDown := false; isUp := true |} ∧
    Key.downHandler a event w = Some (w, event) ∧
    Key.upHandler a event w = Some (w, event) ∧
    is_Some (Key.subscribe r w) ∧
    is_Some (Key.unsubscribe r w).
Proof.
  rewrite Key_constructor_eq. intros [= <- <-] Htrace Hi.
  set (a := length (heap w0)) in *. exists a. split; [done|].
  assert (Hq : null_key_at a w).
  { assert (Hall : Forall (null_key_at a)
                     (on_window (Key.subscribe_calls a)
                        {| listeners := listeners w0;
                           heap := heap w0 ++ [fresh_key None] |} :: ws)).
    { assert (Hq1 : null_key_at a
                      (on_window (Key.subscribe_calls a)
                         {| listeners := listeners w0;
                            heap := heap w0 ++ [fresh_key None] |})).
      { unfold null_key_at. simpl. by rewrite list_lookup_middle. }
      constructor; [done|]. by eapply key_trace_null_key. }
    by eapply Forall_lookup_1 in Hall. }
  assert (Hr : allocated w (obj a)).
  { exists a. split; [done|]. by eapply lookup_lt_Some. }
  split_and!.
  - exact Hq.
  - by rewrite (downHandler_eq _ _ _ _ Hq).
  - by rewrite (upHandler_eq _ _ _ _ Hq).
  - destruct (Key_subscribe_eq w _ Hr) as (? & _ & _ & ->). by eexists.
  - destruct (Key_unsubscribe_eq w _ Hr) as (? & ? & _ & _ & ->). by eexists.
Qed.

Lemma null_code_key_stays_up_witness :
  ∃ a w,
    deref w (obj a) = Some (fresh_key None) ∧
    Key.downHandler a (raw keydown "KeyF") w
      = Some (w, raw keydown "KeyF") ∧
    Key.upHandler a (raw keydown "KeyF") w
      = Some (w, raw keydown "KeyF") ∧
    is_Some (Key.subscribe (obj a) w) ∧
    is_Some (Key.unsubscribe (obj a) w).
Proof.
  pose (w1 := {| listeners := [(keyup, upListener 0); (keydown, downListener 0)];
                 heap := [fresh_key None] |}).
  pose (ops := [KDispatch (raw keydown "KeyF");
                KPress 0 (raw keydown "KeyF");
                KNew (Some "KeyF"%string);
                KDispatch (raw keydown "KeyF");
                KUnsubscribe (obj 0)]).
  destruct (key_trace ops w1) as [ws|] eqn:Htrace;
    [|vm_compute in Htrace; discriminate Htrace].
  destruct (ws !! 4%nat) as [w|] eqn:Hw.
  - destruct (null_code_key_stays_up empty_world (obj 0) w1 ops ws 5%nat w
                (raw keydown "KeyF") eq_refl Htrace Hw)
      as (a & [= <-] & Hrest).
    exists 0%nat, w. exact Hrest.
  - vm_compute in Htrace. injection Htrace as <-. discriminate Hw.
Defined.

(** A keyboard constructed without the combined key holds a key object
    all the same: in every later state that key reads as up and both
    [subscribe()] and [unsubscribe()] of the keyboard return. *)
Lemma disabled_combo_is_up base l r u dn p w0 ops :
  world_ok w0 →
  ∃ s0 s,
    PikaKeyboard.constructor base l r u dn p None w0 = Some s0 ∧
    run ops s0 = Some s ∧
    truthy (PikaKeyboard.downRightKey s.2) = true ∧
    PikaKeyboard.read_isDown s.1 (PikaKeyboard.downRightKey s.2) = Some false ∧
    is_Some (PikaKeyboard.subscribe s.1 s.2) ∧
    is_Some (PikaKeyboard.unsubscribe s.1 s.2).
Proof.
  intros Hok0.
  destruct (PikaKeyboard_constructor_spec base l r u dn p None w0 Hok0)
    as (w & d & Hc & Hok & Hheap & Hkeys & _).
  destruct (PikaKeyboard_constructor_Inv base l r u dn p None w0 Hok0)
    as (s0 & Hc' & Hinv0).
  assert (s0 = (w, d)) as -> by congruence.
  destruct (run_Inv ops (w, d) Hinv0) as ([w' d'] & Hrun & Hinv & Hev & Hk).
  simpl in *. exists (w, d), (w', d'). split_and!; try done; simpl.
  - rewrite Hkeys in Hk. unfold PikaKeyboard.keys in Hk. simpl in Hk.
    by injection Hk as _ _ _ _ _ ->.
  - rewrite Hkeys in Hk. unfold PikaKeyboard.keys in Hk. simpl in Hk.
    injection Hk as _ _ _ _ _ ->.
    unfold PikaKeyboard.read_isDown. simpl.
    assert (Hnull : heap w !! (length (heap w0) + 5)%nat = Some (fresh_key None)).
    { rewrite Hheap. rewrite lookup_app_r by lia.
      by replace (length (heap w0) + 5 - length (heap w0))%nat with 5%nat by lia. }
    destruct Hev as [_ Hev]. destruct (Hev _ _ Hnull) as (k' & Hk' & Hv).
    rewrite Hk'. simpl. f_equal. destruct Hinv as [Hok' _].
    by destruct (ok_null w' Hok' _ k' Hk' Hv).
  - destruct (PikaKeyboard_subscribe_spec w' d' Hinv) as (? & -> & _).
    by eexists.
  - destruct Hinv as [_ Hd'].
    destruct (PikaKeyboard_unsubscribe_spec w' d' Hd') as (? & -> & _).
    by eexists.
Qed.

(** ** The order of registration *)

(** C6.  Every call of [Key.subscribe()] that returns makes its calls on
    the window in this order: the keyup listener is added at an earlier
    position than the keydown listener.  So at no point of the call is the
    keydown listener on the window without the keyup listener, unless it
    already was when the call began; and when neither was registered, the
    keyup listener is appended to the listener list before the keydown
    listener. *)
Theorem keyup_is_registered_before_keydown r w w' :
  Key.subscribe r w = Some w' →
  ∃ a, r = obj a ∧
    let calls := Key.subscribe_calls a in
    let up := AddEventListener keyup (upListener a) in
    let down := AddEventListener keydown (downListener a) in
    w' = on_window calls w ∧
    (∃ i j, calls !! i = Some up ∧ calls !! j = Some down ∧ (i < j)%nat) ∧
    (∀ i j, calls !! i = Some up → calls !! j = Some down → (i < j)%nat) ∧
    (∀ n, (keydown, downListener a)
            ∈ window_calls (take n calls) (listeners w) →
          (keydown, downListener a) ∈ listeners w ∨
          (keyup, upListener a)
            ∈ window_calls (take n calls) (listeners w)) ∧
    ((keyup, upListener a) ∉ listeners w →
     (keydown, downListener a) ∉ listeners w →
     listeners w' =
       listeners w ++ [(keyup, upListener a); (keydown, downListener a)]).
Proof.
  unfold Key.subscribe.
  destruct (address w r) as [a|] eqn:Ha; simpl; [|done].
  intros [= <-]. apply address_Some in Ha as [-> Ha].
  exists a. split; [done|]. simpl. split_and!.
  - done.
  - exists 0%nat, 1%nat. split_and!; [done|done|lia].
  - intros [|[|i]] [|[|j]] Hi Hj; simpl in *; try done; lia.
  - intros [|[|n]]; simpl.
    + by left.
    + rewrite !elem_of_addEventListener. intros [?|?]; [by left|done].
    + rewrite take_nil. simpl. rewrite !elem_of_addEventListener.
      intros _. right. by left; right.
  - intros Hup Hdown. unfold addEventListener.
    destruct (decide ((keyup, upListener a) ∈ listeners w)) as [?|_]; [done|].
    destruct (decide ((keydown, downListener a)
                        ∈ listeners w ++ [(keyup, upListener a)])) as [Hin|_].
    + apply elem_of_app in Hin as [?|Hin]; [done|].
      by apply list_elem_of_singleton in Hin.
    + by rewrite <- app_assoc.
Qed.

Lemma keyup_is_registered_before_keydown_witness :
  ∃ w',
    Key.subscribe (obj 4) {| listeners := []; heap := heap player1.1 |}
      = Some w' ∧
    listeners w' = [(keyup, upListener 4); (keydown, downListener 4)].
Proof.
  destruct (keyup_is_registered_before_keydown (obj 4)
              {| listeners := []; heap := heap player1.1 |}
              {| listeners := [(keyup, upListener 4); (keydown, downListener 4)];
                 heap := heap player1.1 |} eq_refl)
    as (a & Ha & _ & _ & _ & _ & Hfresh).
  injection Ha as <-.
  eexists. split; [reflexivity|].
  apply Hfresh; simpl; apply not_elem_of_nil.
Defined.

(** * Further properties of the keyboard *)

(** ** The delivery of an event, in closed form *)

Lemma listener_for_bound t a : bound_this (listener_for t a) = a.
Proof. by destruct t. Qed.

Lemma listener_for_inj t a b : listener_for t a = listener_for t b → a = b.
Proof. destruct t; by intros [= ->]. Qed.

Lemma paired_listener_for t l :
  (t, l) = (keyup, upListener (bound_this l)) ∨
  (t, l) = (keydown, downListener (bound_this l)) →
  l = listener_for t (bound_this l).
Proof. intros [[= -> Hl]|[= -> Hl]]; simpl; by rewrite <- Hl. Qed.

Lemma invoke_listener_for t b event w kb :
  heap w !! b = Some kb →
  invoke (listener_for t b) event w =
    Some (if strict_equal (code event) (value kb)
          then (store b (match t with
                         | keydown => set_down kb
                         | keyup => set_up kb
                         end) w, preventDefault event)
          else (w, event)).
Proof.
  intros Hkb. destruct t; simpl.
  - by apply downHandler_eq.
  - by apply upHandler_eq.
Qed.

Lemma preventDefault_idempotent event :
  preventDefault (preventDefault event) = preventDefault event.
Proof.
  unfold preventDefault. simpl. f_equal.
  by destruct (cancelable event), (defaultPrevented event).
Qed.

Lemma consumes_nil event a k : consumes [] event a k = false.
Proof.
  unfold consumes. rewrite bool_decide_eq_false_2 by apply not_elem_of_nil.
  apply andb_false_r.
Qed.

Lemma consumes_cons x rest event a k :
  consumes (x :: rest) event a k =
    strict_equal (code event) (value k) &&
    (bool_decide (x = (type event, listener_for (type event) a)) ||
     bool_decide ((type event, listener_for (type event) a) ∈ rest)).
Proof.
  unfold consumes. f_equal. rewrite <- bool_decide_or.
  apply bool_decide_ext. rewrite elem_of_cons. split.
  - intros [<-|?]; auto.
  - intros [->|?]; auto.
Qed.

Lemma consumes_event_ext ls event event' a k :
  type event' = type event → code event' = code event →
  consumes ls event' a k = consumes ls event a k.
Proof. intros Ht Hc. unfold consumes. by rewrite Ht, Hc. Qed.

Lemma react_event_ext ls event event' a k :
  type event' = type event → code event' = code event →
  react ls event' a k = react ls event a k.
Proof.
  intros Ht Hc. unfold react.
  by rewrite (consumes_event_ext _ _ _ _ _ Ht Hc), Ht.
Qed.

Lemma react_nil event a k : react [] event a k = k.
Proof. unfold react. by rewrite consumes_nil. Qed.

(** A listener of another key, or for another event type, does not count. *)
Lemma react_cons_other t l rest event a k :
  (t, l) ≠ (type event, listener_for (type event) a) →
  react ((t, l) :: rest) event a k = react rest event a k.
Proof.
  intros Hne. unfold react. rewrite consumes_cons.
  rewrite bool_decide_eq_false_2 by done. done.
Qed.

Lemma react_cons_miss x rest event a k :
  strict_equal (code event) (value k) = false →
  react (x :: rest) event a k = k ∧ react rest event a k = k.
Proof. intros Hm. unfold react, consumes. by rewrite Hm. Qed.

Lemma react_cons_hit rest event a k :
  strict_equal (code event) (value k) = true →
  react ((type event, listener_for (type event) a) :: rest) event a k =
    match type event with keydown => set_down k | keyup => set_up k end.
Proof.
  intros Hm. unfold react. rewrite consumes_cons, Hm.
  by rewrite bool_decide_eq_true_2.
Qed.

Lemma react_settled ls event a k :
  react ls event a
    (match type event with keydown => set_down k | keyup => set_up k end) =
  match type event with keydown => set_down k | keyup => set_up k end.
Proof.
  unfold react.
  destruct (consumes ls event a _); [|done]. by destruct (type event).
Qed.

Lemma react_value ls event a k : value (react ls event a k) = value k.
Proof.
  unfold react. destruct (consumes ls event a k); [|done].
  by destruct (type event).
Qed.

Lemma react_idempotent ls event a k :
  react ls event a (react ls event a k) = react ls event a k.
Proof.
  destruct (consumes ls event a k) eqn:Hc.
  - assert (Hr : react ls event a k =
                 match type event with
                 | keydown => set_down k
                 | keyup => set_up k
                 end) by (unfold react; by rewrite Hc).
    rewrite Hr. apply react_settled.
  - assert (Hr : react ls event a k = k) by (unfold react; by rewrite Hc).
    by rewrite !Hr.
Qed.

Lemma deliver_exact ls : ∀ event w,
  (∀ t l, (t, l) ∈ ls →
     (bound_this l < length (heap w))%nat ∧
     l = listener_for t (bound_this l)) →
  ∃ w' event',
    deliver ls event w = Some (w', event') ∧
    listeners w' = listeners w ∧
    (∀ a, heap w' !! a = react ls event a <$> heap w !! a) ∧
    type event' = type event ∧ code event' = code event ∧
    ((event' = preventDefault event ∧
      ∃ a k, heap w !! a = Some k ∧ consumes ls event a k = true) ∨
     (event' = event ∧
      ∀ a k, heap w !! a = Some k → consumes ls event a k = false)).
Proof.
  induction ls as [|[t l] rest IH]; intros event w Hls; simpl.
  - exists w, event. split_and!; try done.
    + intros a. destruct (heap w !! a); simpl; [|done]. by rewrite react_nil.
    + right. split; [done|]. intros. apply consumes_nil.
  - assert (Hrest : ∀ w1, length (heap w1) = length (heap w) →
              ∀ t' l', (t', l') ∈ rest →
                (bound_this l' < length (heap w1))%nat ∧
                l' = listener_for t' (bound_this l')).
    { intros w1 Hlen t' l' Hin. rewrite Hlen. apply Hls. by right. }
    case_decide as Ht.
    + subst t. destruct (Hls (type event) l) as [Hb Hl]; [by left|].
      set (b := bound_this l) in *. rewrite Hl. clearbody b. clear Hl.
      destruct (lookup_lt_is_Some_2 _ _ Hb) as [kb Hkb].
      rewrite (invoke_listener_for _ _ _ _ _ Hkb).
      destruct (strict_equal (code event) (value kb)) eqn:Hm; simpl.
      * set (kb' := match type event with
                    | keydown => set_down kb
                    | keyup => set_up kb
                    end).
        destruct (IH (preventDefault event) (store b kb' w))
          as (w' & event' & -> & Hlst & Hheap & Ht' & Hc' & Hev).
        { apply Hrest. apply store_length. }
        exists w', event'. split_and!; try done.
        -- intros a. rewrite Hheap.
           destruct (decide (b = a)) as [<-|Hne].
           ++ rewrite store_lookup_eq, Hkb by done. simpl. f_equal.
              rewrite (react_event_ext _ event) by done.
              rewrite (react_cons_hit _ _ _ _ Hm). apply react_settled.
           ++ rewrite store_lookup_ne by done.
              destruct (heap w !! a) as [k|]; simpl; [|done]. f_equal.
              rewrite (react_event_ext _ event) by done.
              rewrite react_cons_other; [done|].
              intros [= Heq]. by apply listener_for_inj in Heq.
        -- left. split.
           ++ destruct Hev as [[-> _]|[-> _]]; [|done].
              apply preventDefault_idempotent.
           ++ exists b, kb. split; [done|].
              rewrite consumes_cons, Hm. by rewrite bool_decide_eq_true_2.
      * destruct (IH event w (Hrest w eq_refl))
          as (w' & event' & -> & Hlst & Hheap & Ht' & Hc' & Hev).
        exists w', event'. split_and!; try done.
        -- intros a. rewrite Hheap.
           destruct (heap w !! a) as [k|] eqn:Hk; simpl; [|done]. f_equal.
           destruct (decide (b = a)) as [<-|Hne].
           ++ assert (k = kb) as -> by congruence.
              by destruct (react_cons_miss
                             (type event, listener_for (type event) b)
                             rest event b kb Hm) as [-> ->].
           ++ rewrite react_cons_other; [done|].
              intros [= Heq]. by apply listener_for_inj in Heq.
        -- destruct Hev as [[-> (a & k & Hk & Hcons)]|[-> Hnone]].
           ++ left. split; [done|]. exists a, k. split; [done|].
              rewrite consumes_cons. unfold consumes in Hcons.
              apply andb_prop in Hcons as [-> ->]. by rewrite orb_true_r.
           ++ right. split; [done|]. intros a k Hk.
              rewrite consumes_cons.
              destruct (decide (b = a)) as [<-|Hne].
              ** assert (k = kb) as -> by congruence. by rewrite Hm.
              ** rewrite bool_decide_eq_false_2.
                 { apply (Hnone a k Hk). }
                 intros [= Heq]. by apply listener_for_inj in Heq.
    + destruct (IH event w (Hrest w eq_refl))
        as (w' & event' & -> & Hlst & Hheap & Ht' & Hc' & Hev).
      exists w', event'. split_and!; try done.
      * intros a. rewrite Hheap.
        destruct (heap w !! a) as [k|]; simpl; [|done]. f_equal.
        rewrite react_cons_other; [done|]. by intros [= -> _].
      * destruct Hev as [[-> (a & k & Hk & Hcons)]|[-> Hnone]].
        -- left. split; [done|]. exists a, k. split; [done|].
           rewrite consumes_cons. unfold consumes in Hcons.
           apply andb_prop in Hcons as [-> ->]. by rewrite orb_true_r.
        -- right. split; [done|]. intros a k Hk. rewrite consumes_cons.
           rewrite bool_decide_eq_false_2 by by intros [= -> _].
           apply (Hnone a k Hk).
Qed.

Lemma dispatchEvent_exact event w :
  world_ok w →
  ∃ w' event',
    dispatchEvent event w = Some (w', event') ∧
    listeners w' = listeners w ∧
    (∀ a, heap w' !! a = react (listeners w) event a <$> heap w !! a) ∧
    type event' = type event ∧ code event' = code event ∧
    ((event' = preventDefault event ∧
      ∃ a k, heap w !! a = Some k ∧ consumes (listeners w) event a k = true) ∨
     (event' = event ∧
      ∀ a k, heap w !! a = Some k → consumes (listeners w) event a k = false)).
Proof.
  intros Hok. apply deliver_exact. intros t l Hin. split.
  - by eapply ok_bound.
  - by apply paired_listener_for, (ok_paired w Hok).
Qed.

Lemma strict_equal_true c v : strict_equal c v = true ↔ v = Some c.
Proof.
  destruct v as [s|]; simpl; [|done]. rewrite String.eqb_eq.
  split; [by intros ->|by intros [= ->]].
Qed.

Lemma consumes_true ls event a k :
  consumes ls event a k = true ↔
  value k = Some (code event) ∧
  (type event, listener_for (type event) a) ∈ ls.
Proof.
  unfold consumes. rewrite andb_true_iff, strict_equal_true.
  by rewrite bool_decide_eq_true.
Qed.

(** X1.  Delivery of an event on a well-formed page returns, keeps the
    listener list, and changes the keys in exactly this way: a key whose
    code is the code of the event and whose listener for the type of the
    event is registered becomes down (keydown) or up (keyup); every other
    key object is left as it was, and no key is added or removed. *)
Theorem delivery_in_closed_form t c w :
  world_ok w →
  ∃ w' event',
    dispatchEvent (raw t c) w = Some (w', event') ∧
    listeners w' = listeners w ∧
    length (heap w') = length (heap w) ∧
    ∀ a k, heap w !! a = Some k →
      heap w' !! a =
        Some (if strict_equal c (value k) &&
                 bool_decide ((t, listener_for t a) ∈ listeners w)
              then {| value := value k;
                      isDown := bool_decide (t = keydown);
                      isUp := bool_decide (t = keyup) |}
              else k).
Proof.
  intros Hok.
  destruct (dispatchEvent_exact (raw t c) w Hok)
    as (w' & event' & Hd & Hls & Hheap & _).
  destruct (dispatchEvent_spec (raw t c) w Hok) as (? & ? & Hd' & _ & _ & Hlen & _).
  rewrite Hd in Hd'. injection Hd' as <- <-.
  exists w', event'. split_and!; try done.
  intros a k Hk. rewrite Hheap, Hk. simpl. f_equal.
  unfold react, consumes. simpl.
  destruct (strict_equal c (value k) && _); [|done]. by destruct t.
Qed.

Lemma delivery_in_closed_form_witness :
  ∃ w' event',
    dispatchEvent (raw keydown "KeyG") player1.1 = Some (w', event') ∧
    heap w' = heap (player1_holding false true false false false false).1.
Proof.
  destruct (delivery_in_closed_form keydown "KeyG" player1.1)
    as (w' & event' & Hd & _).
  - apply Inv_player1_holding.
  - exists w', event'. split; [exact Hd|].
    vm_compute in Hd. by injection Hd as <- <-.
Defined.

(** X2.  The default action is cancelled for exactly the cancelable
    events some subscribed key consumes.  After the delivery of any
    event, cancelable or not, [defaultPrevented] is true if and only if
    it already was, or the event is cancelable and some key has the code
    of the event and its listener for the type of the event registered.
    In particular an event that is not cancelable is consumed without
    its default action being cancelled. *)
Theorem default_prevented_iff_consumed event w :
  world_ok w →
  ∃ w' event',
    dispatchEvent event w = Some (w', event') ∧
    cancelable event' = cancelable event ∧
    (defaultPrevented event' = true ↔
     defaultPrevented event = true ∨
     (cancelable event = true ∧
      ∃ a k, heap w !! a = Some k ∧ value k = Some (code event) ∧
             (type event, listener_for (type event) a) ∈ listeners w)).
Proof.
  intros Hok.
  destruct (dispatchEvent_exact event w Hok)
    as (w' & event' & Hd & _ & _ & _ & _ & Hev).
  exists w', event'. split; [done|].
  destruct Hev as [[-> (a & k & Hk & Hc)]|[-> Hnone]]; simpl.
  - split; [done|]. apply consumes_true in Hc as [Hv Hin].
    rewrite orb_true_iff. split.
    + intros [Hcan|Hprev]; [right|by left]. split; [done|]. by exists a, k.
    + intros [Hprev|[Hcan _]]; auto.
  - split; [done|]. split; [by left|].
    intros [Hprev|(_ & a & k & Hk & Hv & Hin)]; [done|].
    specialize (Hnone a k Hk).
    assert (consumes (listeners w) event a k = true)
      by by apply consumes_true.
    congruence.
Qed.

Lemma default_prevented_iff_consumed_witness :
  ∃ w1 e1 w2 e2 w3 e3,
    dispatchEvent (raw keydown "KeyZ") player1.1 = Some (w1, e1) ∧
    defaultPrevented e1 = true ∧
    dispatchEvent (raw keydown "Tab") player1.1 = Some (w2, e2) ∧
    defaultPrevented e2 = false ∧
    dispatchEvent
      {| type := keydown; code := "KeyZ";
         cancelable := false; defaultPrevented := false |} player1.1
      = Some (w3, e3) ∧
    defaultPrevented e3 = false ∧
    heap w3 = heap w1.
Proof.
  destruct (default_prevented_iff_consumed (raw keydown "KeyZ") player1.1)
    as (w1 & e1 & Hd1 & _ & Hiff1); [apply Inv_player1_holding|].
  destruct (default_prevented_iff_consumed (raw keydown "Tab") player1.1)
    as (w2 & e2 & Hd2 & _ & Hiff2); [apply Inv_player1_holding|].
  destruct (default_prevented_iff_consumed
              {| type := keydown; code := "KeyZ";
                 cancelable := false; defaultPrevented := false |} player1.1)
    as (w3 & e3 & Hd3 & _ & Hiff3); [apply Inv_player1_holding|].
  exists w1, e1, w2, e2, w3, e3. split_and!; try done.
  - apply Hiff1. right. split; [done|].
    exists 4%nat, (key_state "KeyZ" false).
    split_and!; [done..|]. apply list_elem_of_In. simpl. tauto.
  - vm_compute in Hd2. by injection Hd2 as <- <-.
  - vm_compute in Hd3. by injection Hd3 as <- <-.
  - vm_compute in Hd1, Hd3. injection Hd1 as <- <-. by injection Hd3 as <- <-.
Defined.

(** X3.  Delivering the same event a second time (a held key repeats its
    keydown) changes nothing: the world after the second delivery is the
    world after the first. *)
Theorem repeated_event_changes_nothing t c w :
  world_ok w →
  ∃ w1 event1 event2,
    dispatchEvent (raw t c) w = Some (w1, event1) ∧
    dispatchEvent (raw t c) w1 = Some (w1, event2).
Proof.
  intros Hok.
  destruct (dispatchEvent_exact (raw t c) w Hok)
    as (w1 & event1 & Hd1 & Hls1 & Hheap1 & _).
  destruct (dispatchEvent_spec (raw t c) w Hok)
    as (? & ? & Hd' & Hok1 & _).
  rewrite Hd1 in Hd'. injection Hd' as <- <-.
  destruct (dispatchEvent_exact (raw t c) w1 Hok1)
    as (w2 & event2 & Hd2 & Hls2 & Hheap2 & _).
  exists w1, event1, event2. split; [done|].
  rewrite Hd2. do 2 f_equal.
  destruct w1 as [ls1 h1], w2 as [ls2 h2]. simpl in *. f_equal; [done|].
  apply list_eq. intros a. rewrite Hheap2, Hls1, Hheap1.
  destruct (heap w !! a) as [k|]; simpl; [|done].
  by rewrite react_idempotent.
Qed.

Lemma repeated_event_changes_nothing_witness :
  ∃ w1 event1 event2,
    dispatchEvent (raw keydown "KeyD") player1.1 = Some (w1, event1) ∧
    dispatchEvent (raw keydown "KeyD") w1 = Some (w1, event2).
Proof.
  apply repeated_event_changes_nothing. apply Inv_player1_holding.
Defined.

(** ** Listeners come in pairs *)

Lemma pairs_subscribe_calls a w :
  registered_in_pairs w →
  registered_in_pairs (on_window (Key.subscribe_calls a) w).
Proof.
  intros Hp b. unfold on_window. simpl listeners.
  change (addEventListener keydown (downListener a)
            (addEventListener keyup (upListener a) (listeners w)))
    with (window_calls (Key.subscribe_calls a) (listeners w)).
  rewrite !elem_of_subscribe_calls, (Hp b). split.
  - intros [?|[[=]|[= ->]]]; auto.
  - intros [?|[[= ->]|[=]]]; auto.
Qed.

Lemma pairs_unsubscribe_calls a k w :
  registered_in_pairs w →
  registered_in_pairs
    (store a k (on_window (Key.unsubscribe_calls a) w)).
Proof.
  intros Hp b. unfold store, on_window. simpl listeners.
  change (removeEventListener keyup (upListener a)
            (removeEventListener keydown (downListener a) (listeners w)))
    with (window_calls (Key.unsubscribe_calls a) (listeners w)).
  rewrite !elem_of_unsubscribe_calls, (Hp b). split.
  - intros (? & Hd & _). split_and!; [done|done|].
    intros [= ->]. by apply Hd.
  - intros (? & _ & Hu). split_and!; [done| |done].
    intros [= ->]. by apply Hu.
Qed.

Lemma pairs_for_each_subscribe rs : ∀ w w',
  for_each_key Key.subscribe rs w = Some w' →
  registered_in_pairs w → registered_in_pairs w'.
Proof.
  induction rs as [|r rest IH]; intros w w'; simpl.
  - by intros [= <-].
  - destruct (Key.subscribe r w) as [w1|] eqn:Hs; simpl; [|done].
    intros Hrest Hp. eapply IH; [exact Hrest|].
    unfold Key.subscribe in Hs.
    destruct (address w r) as [a|]; simpl in Hs; [|done].
    injection Hs as <-. by apply pairs_subscribe_calls.
Qed.

Lemma pairs_for_each_unsubscribe rs : ∀ w w',
  for_each_key Key.unsubscribe rs w = Some w' →
  registered_in_pairs w → registered_in_pairs w'.
Proof.
  induction rs as [|r rest IH]; intros w w'; simpl.
  - by intros [= <-].
  - destruct (Key.unsubscribe r w) as [w1|] eqn:Hs; simpl; [|done].
    intros Hrest Hp. eapply IH; [exact Hrest|].
    unfold Key.unsubscribe in Hs.
    destruct (address w r) as [a|]; simpl in Hs; [|done].
    destruct (heap w !! a) as [k|]; simpl in Hs; [|done].
    injection Hs as <-. by apply pairs_unsubscribe_calls.
Qed.

Lemma step_pairs o s s' :
  Inv s → step o s = Some s' →
  registered_in_pairs s.1 → registered_in_pairs s'.1.
Proof.
  destruct s as [w d]. intros [Hok Hd]. simpl in *.
  destruct o as [t c| | |]; simpl.
  - destruct (dispatchEvent_spec (raw t c) w Hok)
      as (w' & event' & -> & _ & Hls & _).
    simpl. intros [= <-] Hp b. simpl. rewrite Hls. apply Hp.
  - destruct (PikaKeyboard_getInput_ok w d Hd) as (d' & -> & _).
    by intros [= <-].
  - rewrite PikaKeyboard_subscribe_for_each.
    destruct (for_each_key _ _ _) as [w'|] eqn:He; simpl; [|done].
    intros [= <-]. by eapply pairs_for_each_subscribe.
  - rewrite PikaKeyboard_unsubscribe_for_each.
    destruct (for_each_key _ _ _) as [w'|] eqn:He; simpl; [|done].
    intros [= <-]. by eapply pairs_for_each_unsubscribe.
Qed.

Lemma run_pairs ops : ∀ s s',
  Inv s → run ops s = Some s' →
  registered_in_pairs s.1 → registered_in_pairs s'.1.
Proof.
  induction ops as [|o rest IH]; intros s s' Hs; simpl.
  - by intros [= <-].
  - destruct (step_Inv o s Hs) as (s1 & Hstep & Hs1 & _).
    rewrite Hstep. simpl. intros Hrun Hp.
    eapply IH; [exact Hs1|exact Hrun|]. exact (step_pairs o s s1 Hs Hstep Hp).
Qed.

Lemma pairs_Key_constructor v w r w' :
  Key.constructor v w = Some (r, w') →
  registered_in_pairs w → registered_in_pairs w'.
Proof.
  rewrite Key_constructor_eq. intros [= <- <-] Hp.
  by apply pairs_subscribe_calls.
Qed.

Lemma pairs_PikaKeyboard_constructor base l r u dn p c w0 s :
  PikaKeyboard.constructor base l r u dn p c w0 = Some s →
  registered_in_pairs w0 → registered_in_pairs s.1.
Proof.
  unfold PikaKeyboard.constructor. intros Hc Hp.
  destruct (Key.constructor (Some l) w0) as [[r1 w1]|] eqn:H1; simpl in Hc; [|done].
  destruct (Key.constructor (Some r) w1) as [[r2 w2]|] eqn:H2; simpl in Hc; [|done].
  destruct (Key.constructor (Some u) w2) as [[r3 w3]|] eqn:H3; simpl in Hc; [|done].
  destruct (Key.constructor (Some dn) w3) as [[r4 w4]|] eqn:H4; simpl in Hc; [|done].
  destruct (Key.constructor (Some p) w4) as [[r5 w5]|] eqn:H5; simpl in Hc; [|done].
  destruct (Key.constructor c w5) as [[r6 w6]|] eqn:H6; simpl in Hc; [|done].
  injection Hc as <-. simpl.
  eapply pairs_Key_constructor; [exact H6|].
  eapply pairs_Key_constructor; [exact H5|].
  eapply pairs_Key_constructor; [exact H4|].
  eapply pairs_Key_constructor; [exact H3|].
  eapply pairs_Key_constructor; [exact H2|].
  eapply pairs_Key_constructor; [exact H1|done].
Qed.

Lemma pairs_empty : registered_in_pairs empty_world.
Proof. intros a. simpl. split; intros H; by apply elem_of_nil in H. Qed.

Lemma pairs_player1_holding l r u d p c :
  registered_in_pairs (player1_holding l r u d p c).1.
Proof.
  intros a. simpl. unfold six_listeners. rewrite !list_elem_of_In. simpl.
  split; intros H;
    repeat (destruct H as [H|H];
            [try discriminate H; injection H as <-; intuition|]);
    done.
Qed.

(** Every state a keyboard gets into, from its construction on a
    well-formed page with paired listeners, has paired listeners. *)
Lemma reachable_pairs base l r u dn p c w0 ops :
  world_ok w0 → registered_in_pairs w0 →
  ∃ s0 s,
    PikaKeyboard.constructor base l r u dn p c w0 = Some s0 ∧
    run ops s0 = Some s ∧ Inv s ∧ registered_in_pairs s.1.
Proof.
  intros Hok0 Hp0.
  destruct (PikaKeyboard_constructor_Inv base l r u dn p c w0 Hok0)
    as (s0 & Hc & Hinv0).
  destruct (run_Inv ops s0 Hinv0) as (s & Hrun & Hinv & _).
  exists s0, s. split_and!; try done.
  eapply run_pairs; [exact Hinv0|exact Hrun|].
  by eapply pairs_PikaKeyboard_constructor.
Qed.

Lemma keyup_settles c w w' event' :
  world_ok w → registered_in_pairs w →
  dispatchEvent (raw keyup c) w = Some (w', event') →
  ∀ a k', heap w' !! a = Some k' → value k' = Some c →
          isDown k' = false ∧ isUp k' = true.
Proof.
  intros Hok Hp Hd a k' Hk' Hv.
  destruct (dispatchEvent_exact (raw keyup c) w Hok)
    as (? & ? & Hd' & _ & Hheap & _).
  rewrite Hd in Hd'. injection Hd' as <- <-.
  rewrite Hheap in Hk'.
  destruct (heap w !! a) as [k|] eqn:Hk; simpl in Hk'; [|done].
  injection Hk' as <-. rewrite react_value in Hv.
  unfold react. destruct (consumes _ _ a k) eqn:Hc; simpl; [done|].
  assert (Hnot : (keyup, upListener a) ∉ listeners w).
  { intros Hin.
    assert (consumes (listeners w) (raw keyup c) a k = true)
      by by apply consumes_true.
    congruence. }
  assert (Hdown : isDown k = false).
  { destruct (isDown k) eqn:Hdn; [|done]. exfalso. apply Hnot, Hp.
    by eapply (ok_listening w Hok). }
  split; [done|].
  pose proof (ok_exclusive w Hok a k Hk) as He. rewrite Hdown in He.
  by destruct (isUp k).
Qed.

(** X4.  No key stays latched down after its release: on a well-formed
    page whose listeners are registered in pairs (every page a keyboard
    can get into), after the delivery of a keyup event every key with the
    code of the event is up, whether or not it is subscribed. *)
Theorem release_leaves_no_key_down c w :
  world_ok w → registered_in_pairs w →
  ∃ w' event',
    dispatchEvent (raw keyup c) w = Some (w', event') ∧
    ∀ a k', heap w' !! a = Some k' → value k' = Some c →
            isDown k' = false ∧ isUp k' = true.
Proof.
  intros Hok Hp.
  destruct (dispatchEvent_spec (raw keyup c) w Hok) as (w' & event' & Hd & _).
  exists w', event'. split; [done|]. by eapply keyup_settles.
Qed.

Lemma release_leaves_no_key_down_witness :
  ∃ w' event',
    dispatchEvent (raw keyup "KeyZ")
      (player1_holding true false false false true false).1
      = Some (w', event') ∧
    heap w' = heap (player1_holding true false false false false false).1.
Proof.
  destruct (release_leaves_no_key_down "KeyZ"
              (player1_holding true false false false true false).1)
    as (w' & event' & Hd & _).
  - apply Inv_player1_holding.
  - apply pairs_player1_holding.
  - exists w', event'. split; [exact Hd|].
    vm_compute in Hd. by injection Hd as <- <-.
Defined.

(** X5.  The left key follows its events.  On a keyboard whose left key
    has code [c]: if the key is subscribed, a keydown with code [c]
    followed by [getInput()] leaves [xDirection = -1]; and a keyup with
    code [c] followed by [getInput()] leaves [xDirection] different from
    -1. *)
Theorem left_key_follows_its_events s c k :
  Inv s → registered_in_pairs s.1 →
  deref s.1 (PikaKeyboard.leftKey s.2) = Some k →
  value k = Some c →
  (listening s.1 (PikaKeyboard.leftKey s.2) →
   ∃ s1, run [Raw keydown c; GetInput] s = Some s1 ∧
         PikaKeyboard.xDirection s1.2 = -1) ∧
  (∃ s2, run [Raw keyup c; GetInput] s = Some s2 ∧
         PikaKeyboard.xDirection s2.2 ≠ -1).
Proof.
  destruct s as [w d]. intros Hs Hp Hk Hv. simpl in *.
  pose proof Hs as [Hok Hd]. simpl in Hok, Hd.
  assert (Hgo : ∀ t,
            ∃ w' event' kl kr ku kd kp kc,
              dispatchEvent (raw t c) w = Some (w', event') ∧
              deref w' (PikaKeyboard.leftKey d) = Some kl ∧
              (∀ a, PikaKeyboard.leftKey d = obj a →
                    kl = react (listeners w) (raw t c) a k) ∧
              PikaKeyboard.getInput w' d =
                Some (w',
                  {| PikaKeyboard.xDirection :=
                       if isDown kl then -1
                       else if isDown kr || isDown kc then 1 else 0;
                     PikaKeyboard.yDirection :=
                       if isDown ku then -1
                       else if isDown kd || isDown kc then 1 else 0;
                     PikaKeyboard.powerHit :=
                       if negb (PikaKeyboard.powerHitKeyIsDownPrevious d)
                          && isDown kp then 1 else 0;
                     PikaKeyboard.powerHitKeyIsDownPrevious := isDown kp;
                     PikaKeyboard.leftKey := PikaKeyboard.leftKey d;
                     PikaKeyboard.rightKey := PikaKeyboard.rightKey d;
                     PikaKeyboard.upKey := PikaKeyboard.upKey d;
                     PikaKeyboard.downKey := PikaKeyboard.downKey d;
                     PikaKeyboard.powerHitKey := PikaKeyboard.powerHitKey d;
                     PikaKeyboard.downRightKey := PikaKeyboard.downRightKey d |})).
  { intros t.
    destruct (dispatchEvent_exact (raw t c) w Hok)
      as (w' & event' & Hdisp & _ & Hheap & _).
    destruct (step_Inv (Raw t c) (w, d) Hs) as ([w1 d1] & Hstep & [_ Hd1] & _).
    simpl in Hstep. rewrite Hdisp in Hstep. simpl in Hstep.
    injection Hstep as <- <-. simpl in Hd1.
    destruct (keyboard_ok_deref w' d Hd1)
      as (kl & kr & ku & kd & kp & kc & Hl & Hr & Hu & Hdn & Hp' & Hc).
    exists w', event', kl, kr, ku, kd, kp, kc. split_and!; [done|done| |].
    - intros a Ha. rewrite Ha in Hl, Hk. simpl in Hl, Hk.
      rewrite Hheap, Hk in Hl. simpl in Hl. by injection Hl as <-.
    - by apply getInput_eq. }
  split.
  - intros (a & Ha & Hup & Hdown).
    destruct (Hgo keydown)
      as (w' & event' & kl & kr & ku & kd & kp & kc & Hdisp & _ & Hkl & Hget).
    rewrite Hdisp. simpl. rewrite Hget. eexists. split; [done|]. simpl.
    rewrite (Hkl a Ha). unfold react.
    assert (consumes (listeners w) (raw keydown c) a k = true) as ->
      by by apply consumes_true.
    done.
  - destruct (Hgo keyup)
      as (w' & event' & kl & kr & ku & kd & kp & kc & Hdisp & Hl & _ & Hget).
    rewrite Hdisp. simpl. rewrite Hget. eexists. split; [done|]. simpl.
    destruct (PikaKeyboard.leftKey d) as [|a] eqn:Ha; [done|]. simpl in Hl, Hk.
    destruct (keyup_settles c w w' event' Hok Hp Hdisp a kl Hl) as [-> _].
    + destruct (dispatchEvent_exact (raw keyup c) w Hok)
        as (? & ? & Hd' & _ & Hheap & _).
      rewrite Hdisp in Hd'. injection Hd' as <- <-.
      rewrite Hheap, Hk in Hl. simpl in Hl. injection Hl as <-.
      by rewrite react_value.
    + by destruct (isDown kr || isDown kc).
Qed.

Lemma left_key_follows_its_events_witness :
  (∃ s1, run [Raw keydown "KeyD"; GetInput] player1 = Some s1 ∧
         PikaKeyboard.xDirection s1.2 = -1) ∧
  (∃ s2, run [Raw keyup "KeyD"; GetInput] player1 = Some s2 ∧
         PikaKeyboard.xDirection s2.2 ≠ -1).
Proof.
  destruct (left_key_follows_its_events player1 "KeyD" (key_state "KeyD" false))
    as [Hpress Hrelease].
  - apply Inv_player1_holding.
  - apply pairs_player1_holding.
  - reflexivity.
  - reflexivity.
  - split; [|exact Hrelease]. apply Hpress.
    exists 0%nat. split; [reflexivity|].
    split; apply list_elem_of_In; simpl; tauto.
Defined.

(** ** Subscribing again *)

Lemma addEventListener_present t l ls :
  (t, l) ∈ ls → addEventListener t l ls = ls.
Proof. intros Hin. unfold addEventListener. by rewrite decide_True. Qed.

Lemma Key_subscribe_fixed w r :
  allocated w r → listening w r → Key.subscribe r w = Some w.
Proof.
  intros Hr (a & -> & Hup & Hdown).
  destruct (Key_subscribe_eq w (obj a) Hr) as (a' & [= <-] & _ & ->).
  f_equal. destruct w as [ls h]. unfold on_window. simpl in *. f_equal.
  rewrite (addEventListener_present keyup) by done.
  by apply addEventListener_present.
Qed.

Lemma for_each_subscribe_fixed rs w :
  Forall (allocated w) rs → Forall (listening w) rs →
  for_each_key Key.subscribe rs w = Some w.
Proof.
  induction rs as [|r rest IH]; intros Ha Hl; simpl; [done|].
  apply Forall_cons in Ha as [Hr Ha]. apply Forall_cons in Hl as [Hlr Hl].
  rewrite Key_subscribe_fixed by done. simpl. by apply IH.
Qed.

Lemma listening_mono w w' r :
  (∀ x, x ∈ listeners w → x ∈ listeners w') → listening w r → listening w' r.
Proof. intros Hsub (a & -> & Hu & Hd). exists a. auto. Qed.

Lemma for_each_subscribe_listening rs w w' :
  Forall (allocated w) rs → world_ok w →
  for_each_key Key.subscribe rs w = Some w' →
  Forall (listening w') rs.
Proof.
  intros Ha Hok He.
  destruct (for_each_subscribe_spec rs w Ha Hok) as (w1 & He1 & _ & _ & Hls).
  rewrite He in He1. injection He1 as <-.
  apply Forall_forall. intros r Hr.
  pose proof (proj1 (Forall_forall _ _) Ha r Hr) as (a & -> & _).
  exists a. split; [done|]. split; apply Hls; right; exists a; auto.
Qed.

(** X6.  [subscribe()] is idempotent and never touches a key: it returns,
    leaves every key object as it was, and leaves both listeners of each
    of the six keys registered; a second call gives back the same world,
    and on a keyboard that is already subscribed (a new one is) the call
    changes nothing, so no listener is ever registered twice. *)
Theorem subscribe_idempotent s :
  Inv s →
  ∃ w1,
    PikaKeyboard.subscribe s.1 s.2 = Some (w1, s.2) ∧
    PikaKeyboard.subscribe w1 s.2 = Some (w1, s.2) ∧
    heap w1 = heap s.1 ∧
    subscribed w1 s.2 ∧
    (subscribed s.1 s.2 → w1 = s.1).
Proof.
  destruct s as [w d]. intros [Hok Hd]. simpl in *.
  destruct (for_each_subscribe_spec _ w Hd Hok) as (w1 & He & Hok1 & Hh & Hls).
  assert (Hd1 : keyboard_ok w1 d)
    by (eapply keyboard_ok_mono; [|exact Hd]; by rewrite Hh).
  assert (Hsub : subscribed w1 d)
    by exact (for_each_subscribe_listening _ w w1 Hd Hok He).
  exists w1. rewrite !PikaKeyboard_subscribe_for_each, He.
  split_and!; try done.
  - by rewrite for_each_subscribe_fixed.
  - intros Hs. rewrite for_each_subscribe_fixed in He by done.
    by injection He as <-.
Qed.

Lemma subscribe_idempotent_witness :
  ∃ w1,
    PikaKeyboard.subscribe player1.1 player1.2 = Some (w1, player1.2) ∧
    w1 = player1.1.
Proof.
  destruct (subscribe_idempotent player1) as (w1 & Hs & _ & _ & _ & Hsame).
  - apply Inv_player1_holding.
  - exists w1. split; [exact Hs|]. apply Hsame.
    unfold subscribed. simpl.
    repeat (apply Forall_cons; split;
            [eexists; split; [reflexivity|];
             split; apply list_elem_of_In; simpl; tauto|]).
    apply Forall_nil_2.
Defined.

(** ** A new keyboard *)

Lemma Key_constructor_listening v w r w' :
  Key.constructor v w = Some (r, w') →
  listening w' r ∧ ∀ x, x ∈ listeners w → x ∈ listeners w'.
Proof.
  rewrite Key_constructor_eq. intros [= <- <-]. split.
  - eexists. split; [done|].
    split; apply elem_of_subscribe_calls; auto.
  - intros x Hx. apply elem_of_subscribe_calls. auto.
Qed.

Lemma PikaKeyboard_constructor_subscribed base l r u dn p c w0 w d :
  PikaKeyboard.constructor base l r u dn p c w0 = Some (w, d) →
  subscribed w d ∧ ∀ x, x ∈ listeners w0 → x ∈ listeners w.
Proof.
  unfold PikaKeyboard.constructor. intros Hc.
  destruct (Key.constructor (Some l) w0) as [[r1 w1]|] eqn:H1; simpl in Hc; [|done].
  destruct (Key.constructor (Some r) w1) as [[r2 w2]|] eqn:H2; simpl in Hc; [|done].
  destruct (Key.constructor (Some u) w2) as [[r3 w3]|] eqn:H3; simpl in Hc; [|done].
  destruct (Key.constructor (Some dn) w3) as [[r4 w4]|] eqn:H4; simpl in Hc; [|done].
  destruct (Key.constructor (Some p) w4) as [[r5 w5]|] eqn:H5; simpl in Hc; [|done].
  destruct (Key.constructor c w5) as [[r6 w6]|] eqn:H6; simpl in Hc; [|done].
  injection Hc as <- <-.
  apply Key_constructor_listening in H1 as [L1 M1].
  apply Key_constructor_listening in H2 as [L2 M2].
  apply Key_constructor_listening in H3 as [L3 M3].
  apply Key_constructor_listening in H4 as [L4 M4].
  apply Key_constructor_listening in H5 as [L5 M5].
  apply Key_constructor_listening in H6 as [L6 M6].
  split; [|by auto 10].
  unfold subscribed, PikaKeyboard.keys. simpl.
  repeat (apply Forall_cons; split;
          [eapply listening_mono; [|eassumption]; by auto 10|]).
  apply Forall_nil_2.
Qed.

Lemma fresh_keys_all_up w0 w d cs :
  length cs = 6%nat →
  heap w = heap w0 ++ map fresh_key cs →
  PikaKeyboard.keys d =
    map (λ i, obj (length (heap w0) + i)) [0; 1; 2; 3; 4; 5]%nat →
  all_up w d.
Proof.
  intros Hlen Hheap Hkeys. unfold all_up. rewrite Hkeys.
  apply Forall_forall. intros x Hx.
  apply list_elem_of_fmap in Hx as (i & -> & Hi).
  assert (Hlt : (i < 6)%nat).
  { repeat (apply elem_of_cons in Hi as [->|Hi]; [lia|]).
    by apply elem_of_nil in Hi. }
  destruct (lookup_lt_is_Some_2 cs i) as [ci Hci]; [lia|].
  exists (fresh_key ci). split; [|done]. simpl.
  rewrite Hheap, lookup_app_r by lia.
  replace (length (heap w0) + i - length (heap w0))%nat with i by lia.
  by rewrite list_lookup_fmap, Hci.
Qed.

(** X7.  A new keyboard.  On a well-formed page the constructor returns:
    the key objects already there are kept and six new ones follow them,
    with the codes left, right, up, down, powerHit, downRight in this
    order, all up; the keyboard refers to these six; every listener
    already on the window is still there and both listeners of each new
    key are registered, so an explicit [subscribe()] afterwards changes
    nothing; and the first [getInput()] leaves (0, 0, 0) whatever the
    base class had set. *)
Theorem new_keyboard base l r u dn p c w0 :
  world_ok w0 →
  ∃ w d,
    PikaKeyboard.constructor base l r u dn p c w0 = Some (w, d) ∧
    heap w =
      heap w0 ++ map fresh_key [Some l; Some r; Some u; Some dn; Some p; c] ∧
    PikaKeyboard.keys d =
      map (λ i, obj (length (heap w0) + i)) [0; 1; 2; 3; 4; 5]%nat ∧
    (∀ x, x ∈ listeners w0 → x ∈ listeners w) ∧
    subscribed w d ∧
    PikaKeyboard.subscribe w d = Some (w, d) ∧
    ∃ d', PikaKeyboard.getInput w d = Some (w, d') ∧
          PikaKeyboard.snapshot d' = (0, 0, 0).
Proof.
  intros Hok0.
  destruct (PikaKeyboard_constructor_spec base l r u dn p c w0 Hok0)
    as (w & d & Hc & Hok & Hheap & Hkeys & _).
  destruct (PikaKeyboard_constructor_Inv base l r u dn p c w0 Hok0)
    as (s0 & Hc' & [_ Hd]).
  rewrite Hc in Hc'. injection Hc' as <-. simpl in Hd.
  destruct (PikaKeyboard_constructor_subscribed _ _ _ _ _ _ _ _ _ _ Hc)
    as [Hsub Hmono].
  exists w, d. split_and!; try done.
  - rewrite PikaKeyboard_subscribe_for_each.
    by rewrite for_each_subscribe_fixed.
  - apply getInput_all_up.
    by apply (fresh_keys_all_up w0 w d
                [Some l; Some r; Some u; Some dn; Some p; c]).
Qed.

Lemma new_keyboard_witness :
  ∃ w d d',
    PikaKeyboard.constructor zero_input "ArrowLeft" "ArrowRight" "ArrowUp"
      "ArrowDown" "Enter" None player1.1 = Some (w, d) ∧
    length (heap w) = 12%nat ∧
    PikaKeyboard.getInput w d = Some (w, d') ∧
    PikaKeyboard.snapshot d' = (0, 0, 0).
Proof.
  destruct (new_keyboard zero_input "ArrowLeft" "ArrowRight" "ArrowUp"
              "ArrowDown" "Enter" None player1.1)
    as (w & d & Hc & Hheap & _ & _ & _ & _ & d' & Hget & Hsnap).
  - apply Inv_player1_holding.
  - exists w, d, d'. split_and!; try done. by rewrite Hheap.
Defined.

(** ** Two keyboards on one page *)

Lemma deref_outside_unsubscribe w w' d r :
  keyboard_ok w d →
  for_each_key Key.unsubscribe (PikaKeyboard.keys d) w = Some w' →
  r ∉ PikaKeyboard.keys d →
  deref w' r = deref w r.
Proof.
  intros Hd He Hr.
  destruct (for_each_unsubscribe_spec _ w Hd) as (w1 & He1 & _ & Hlen & _ & Hheap).
  rewrite He in He1. injection He1 as <-.
  destruct r as [|a]; [done|]. simpl.
  destruct (heap w !! a) as [k|] eqn:Hk.
  - rewrite (Hheap a k Hk). by rewrite decide_False.
  - apply lookup_ge_None in Hk. apply lookup_ge_None. by rewrite Hlen.
Qed.

Lemma getInput_same_keys w w' d :
  (∀ r, r ∈ PikaKeyboard.keys d → deref w' r = deref w r) →
  PikaKeyboard.getInput w' d =
    (λ s, (w', s.2)) <$> PikaKeyboard.getInput w d.
Proof.
  intros Hsame.
  assert (Hread : ∀ r, r ∈ PikaKeyboard.keys d →
            PikaKeyboard.read_isDown w' r = PikaKeyboard.read_isDown w r).
  { intros r Hr. unfold PikaKeyboard.read_isDown. by rewrite Hsame. }
  unfold PikaKeyboard.getInput, PikaKeyboard.read_xDirection,
    PikaKeyboard.read_yDirection, PikaKeyboard.downRight_isDown.
  rewrite !Hread by (unfold PikaKeyboard.keys; rewrite !elem_of_cons; tauto).
  destruct (PikaKeyboard.read_isDown w (PikaKeyboard.leftKey d)) as [[]|],
    (PikaKeyboard.read_isDown w (PikaKeyboard.rightKey d)) as [[]|],
    (PikaKeyboard.read_isDown w (PikaKeyboard.upKey d)) as [[]|],
    (PikaKeyboard.read_isDown w (PikaKeyboard.downKey d)) as [[]|],
    (truthy (PikaKeyboard.downRightKey d)),
    (PikaKeyboard.read_isDown w (PikaKeyboard.downRightKey d)) as [[]|],
    (PikaKeyboard.read_isDown w (PikaKeyboard.powerHitKey d)) as [[]|];
    reflexivity.
Qed.

(** X8.  Unsubscribing one keyboard leaves another alone.  For two
    keyboards that share no key object, [unsubscribe()] on the first
    leaves every key of the second as it was, leaves the second
    subscribed if it was, and [getInput()] on the second gives what it
    gave before. *)
Theorem unsubscribe_leaves_other_keyboard w d d2 :
  world_ok w → keyboard_ok w d →
  (∀ r, r ∈ PikaKeyboard.keys d2 → r ∉ PikaKeyboard.keys d) →
  ∃ w',
    PikaKeyboard.unsubscribe w d = Some (w', d) ∧
    (∀ r, r ∈ PikaKeyboard.keys d2 → deref w' r = deref w r) ∧
    (subscribed w d2 → subscribed w' d2) ∧
    PikaKeyboard.getInput w' d2 =
      (λ s, (w', s.2)) <$> PikaKeyboard.getInput w d2.
Proof.
  intros Hok Hd Hdisj.
  destruct (PikaKeyboard_unsubscribe_spec w d Hd)
    as (w' & Hun & _ & _ & _ & Hls & _).
  pose proof Hun as He. rewrite PikaKeyboard_unsubscribe_for_each in He.
  destruct (for_each_key _ _ w) as [w1|] eqn:He1; simpl in He; [|done].
  injection He as ->.
  assert (Hsame : ∀ r, r ∈ PikaKeyboard.keys d2 → deref w' r = deref w r).
  { intros r Hr. eapply deref_outside_unsubscribe; eauto. }
  exists w'. split_and!; try done.
  - intros Hsub. apply Forall_forall. intros r Hr.
    pose proof (proj1 (Forall_forall _ _) Hsub r Hr) as (a & -> & Hu & Hdn).
    exists a. split; [done|].
    split; apply Hls; (split; [done|]); intros b Hb;
      split; intros [= ->]; by apply (Hdisj _ Hr).
  - by apply getInput_same_keys.
Qed.

Lemma new_keys_are_new w0 d1 d2 :
  keyboard_ok w0 d1 →
  PikaKeyboard.keys d2 =
    map (λ i, obj (length (heap w0) + i)) [0; 1; 2; 3; 4; 5]%nat →
  ∀ r, r ∈ PikaKeyboard.keys d2 → r ∉ PikaKeyboard.keys d1.
Proof.
  intros Hd1 Hkeys r Hr Hr1. rewrite Hkeys in Hr.
  apply list_elem_of_fmap in Hr as (i & -> & _).
  pose proof (proj1 (Forall_forall _ _) Hd1 _ Hr1) as (a & [= <-] & Ha).
  lia.
Qed.

Lemma unsubscribe_leaves_other_keyboard_witness :
  ∃ w d2 w',
    PikaKeyboard.constructor zero_input "ArrowLeft" "ArrowRight" "ArrowUp"
      "ArrowDown" "Enter" None
      (player1_holding false true false false false false).1 = Some (w, d2) ∧
    PikaKeyboard.unsubscribe w d2 = Some (w', d2) ∧
    PikaKeyboard.getInput w' player1.2 =
      (λ s, (w', s.2)) <$> PikaKeyboard.getInput w player1.2.
Proof.
  destruct (PikaKeyboard_constructor_spec zero_input "ArrowLeft" "ArrowRight"
              "ArrowUp" "ArrowDown" "Enter" None
              (player1_holding false true false false false false).1)
    as (w & d2 & Hc & Hok & Hheap & Hkeys & _);
    [apply Inv_player1_holding|].
  destruct (PikaKeyboard_constructor_Inv zero_input "ArrowLeft" "ArrowRight"
              "ArrowUp" "ArrowDown" "Enter" None
              (player1_holding false true false false false false).1)
    as (s0 & Hc' & [_ Hd2]); [apply Inv_player1_holding|].
  rewrite Hc in Hc'. injection Hc' as <-. simpl in Hd2.
  destruct (unsubscribe_leaves_other_keyboard w d2 player1.2 Hok Hd2)
    as (w' & Hun & _ & _ & Hget).
  - intros r Hr Hr2.
    eapply (new_keys_are_new
              (player1_holding false true false false false false).1
              player1.2 d2); [apply Inv_player1_holding|exact Hkeys|exact Hr2|exact Hr].
  - by exists w, d2, w'.
Defined.

(** X9.  A second keyboard is separate from the first.  Constructing a
    keyboard on a page that already holds one returns; the new keyboard
    shares no key object with the old one; the old one's keys are as they
    were, it is still subscribed if it was, and [getInput()] on it gives
    what it gave before; both keyboards are well formed on the new page. *)
Theorem second_keyboard_is_separate base l r u dn p c w d1 :
  Inv (w, d1) →
  ∃ w2 d2,
    PikaKeyboard.constructor base l r u dn p c w = Some (w2, d2) ∧
    Inv (w2, d1) ∧ Inv (w2, d2) ∧
    (∀ x, x ∈ PikaKeyboard.keys d2 → x ∉ PikaKeyboard.keys d1) ∧
    (∀ x, x ∈ PikaKeyboard.keys d1 → deref w2 x = deref w x) ∧
    (subscribed w d1 → subscribed w2 d1) ∧
    PikaKeyboard.getInput w2 d1 =
      (λ s, (w2, s.2)) <$> PikaKeyboard.getInput w d1.
Proof.
  intros [Hok Hd1]. simpl in *.
  destruct (PikaKeyboard_constructor_spec base l r u dn p c w Hok)
    as (w2 & d2 & Hc & Hok2 & Hheap & Hkeys & _).
  destruct (PikaKeyboard_constructor_Inv base l r u dn p c w Hok)
    as (s0 & Hc' & Hinv2).
  rewrite Hc in Hc'. injection Hc' as <-.
  destruct (PikaKeyboard_constructor_subscribed _ _ _ _ _ _ _ _ _ _ Hc)
    as [_ Hmono].
  assert (Hsame : ∀ x, x ∈ PikaKeyboard.keys d1 → deref w2 x = deref w x).
  { intros x Hx.
    pose proof (proj1 (Forall_forall _ _) Hd1 _ Hx) as (a & -> & Ha).
    simpl. rewrite Hheap. by apply lookup_app_l. }
  exists w2, d2. split_and!; try done.
  - split; [done|]. simpl. eapply keyboard_ok_mono; [|exact Hd1].
    rewrite Hheap, length_app. lia.
  - by eapply new_keys_are_new.
  - intros Hsub. eapply Forall_impl; [exact Hsub|].
    intros x. by apply listening_mono.
  - by apply getInput_same_keys.
Qed.

Lemma second_keyboard_is_separate_witness :
  ∃ w2 d2,
    PikaKeyboard.constructor zero_input "ArrowLeft" "ArrowRight" "ArrowUp"
      "ArrowDown" "Enter" None
      (player1_holding true false false false false false).1 = Some (w2, d2) ∧
    PikaKeyboard.snapshot <$> (snd <$> PikaKeyboard.getInput w2 player1.2)
      = Some (-1, 0, 0).
Proof.
  destruct (second_keyboard_is_separate zero_input "ArrowLeft" "ArrowRight"
              "ArrowUp" "ArrowDown" "Enter" None
              (player1_holding true false false false false false).1
              player1.2)
    as (w2 & d2 & Hc & _ & _ & _ & _ & _ & Hget).
  - apply Inv_player1_holding.
  - exists w2, d2. split; [exact Hc|]. by rewrite Hget.
Defined.

(** ** More on [getInput()] *)

(** X10.  The values [getInput()] leaves are in range: [xDirection] and
    [yDirection] are -1, 0 or 1 and [powerHit] is 0 or 1, whatever the
    fields held before. *)
Theorem getInput_ranges w d :
  keyboard_ok w d →
  ∃ d', PikaKeyboard.getInput w d = Some (w, d') ∧
        (PikaKeyboard.xDirection d' = -1 ∨ PikaKeyboard.xDirection d' = 0 ∨
         PikaKeyboard.xDirection d' = 1) ∧
        (PikaKeyboard.yDirection d' = -1 ∨ PikaKeyboard.yDirection d' = 0 ∨
         PikaKeyboard.yDirection d' = 1) ∧
        (PikaKeyboard.powerHit d' = 0 ∨ PikaKeyboard.powerHit d' = 1).
Proof.
  intros Hd.
  destruct (keyboard_ok_deref w d Hd)
    as (kl & kr & ku & kd & kp & kc & Hl & Hr & Hu & Hdn & Hp & Hc).
  eexists. split; [by eapply getInput_eq|]. simpl.
  destruct (isDown kl), (isDown kr), (isDown ku), (isDown kd),
    (isDown kc), (isDown kp), (PikaKeyboard.powerHitKeyIsDownPrevious d);
    simpl; auto.
Qed.

Lemma getInput_ranges_witness :
  ∃ d', PikaKeyboard.getInput
          (player1_holding false true true true true false).1
          {| PikaKeyboard.xDirection := 7;
             PikaKeyboard.yDirection := -3;
             PikaKeyboard.powerHit := 2;
             PikaKeyboard.powerHitKeyIsDownPrevious := false;
             PikaKeyboard.leftKey := obj 0;
             PikaKeyboard.rightKey := obj 1;
             PikaKeyboard.upKey := obj 2;
             PikaKeyboard.downKey := obj 3;
             PikaKeyboard.powerHitKey := obj 4;
             PikaKeyboard.downRightKey := obj 5 |}
        = Some ((player1_holding false true true true true false).1, d') ∧
        PikaKeyboard.snapshot d' = (1, -1, 1).
Proof.
  destruct (getInput_ranges
              (player1_holding false true true true true false).1
              {| PikaKeyboard.xDirection := 7;
                 PikaKeyboard.yDirection := -3;
                 PikaKeyboard.powerHit := 2;
                 PikaKeyboard.powerHitKeyIsDownPrevious := false;
                 PikaKeyboard.leftKey := obj 0;
                 PikaKeyboard.rightKey := obj 1;
                 PikaKeyboard.upKey := obj 2;
                 PikaKeyboard.downKey := obj 3;
                 PikaKeyboard.powerHitKey := obj 4;
                 PikaKeyboard.downRightKey := obj 5 |})
    as (d' & Hget & _).
  - unfold keyboard_ok. simpl.
    repeat (apply Forall_cons; split; [eexists; split; [done|simpl; lia]|]).
    apply Forall_nil_2.
  - exists d'. split; [exact Hget|].
    vm_compute in Hget. by injection Hget as <-.
Defined.

(** X11.  Up overrides down and the combined key: whenever the up key is
    down, whatever the state of every other key, [getInput()] returns and
    leaves [yDirection] at -1. *)
Theorem up_overrides_down_and_combo w d :
  keyboard_ok w d →
  PikaKeyboard.read_isDown w (PikaKeyboard.upKey d) = Some true →
  ∃ d', PikaKeyboard.getInput w d = Some (w, d') ∧
        PikaKeyboard.yDirection d' = -1.
Proof.
  intros Hd Hup.
  destruct (keyboard_ok_deref w d Hd)
    as (kl & kr & ku & kd & kp & kc & Hl & Hr & Hu & Hdn & Hp & Hc).
  eexists. split; [by eapply getInput_eq|]. simpl.
  unfold PikaKeyboard.read_isDown in Hup. rewrite Hu in Hup.
  injection Hup as ->. done.
Qed.

Lemma up_overrides_down_and_combo_witness :
  ∃ d', PikaKeyboard.getInput
          (player1_holding false false true true false true).1
          (player1_holding false false true true false true).2
        = Some ((player1_holding false false true true false true).1, d') ∧
        PikaKeyboard.yDirection d' = -1.
Proof.
  apply up_overrides_down_and_combo.
  - apply Inv_player1_holding.
  - reflexivity.
Defined.

(** X12.  The combined key has the effect of the down key and the right
    key pressed together: of two states of one keyboard that agree on the
    left key and on the up key, one with the combined key down and the
    other with the right key and the down key both down, [getInput()]
    leaves the same [xDirection] and the same [yDirection]. *)
Theorem combo_is_down_and_right w1 w2 d :
  keyboard_ok w1 d → keyboard_ok w2 d →
  PikaKeyboard.read_isDown w1 (PikaKeyboard.leftKey d) =
    PikaKeyboard.read_isDown w2 (PikaKeyboard.leftKey d) →
  PikaKeyboard.read_isDown w1 (PikaKeyboard.upKey d) =
    PikaKeyboard.read_isDown w2 (PikaKeyboard.upKey d) →
  PikaKeyboard.read_isDown w1 (PikaKeyboard.downRightKey d) = Some true →
  PikaKeyboard.read_isDown w2 (PikaKeyboard.rightKey d) = Some true →
  PikaKeyboard.read_isDown w2 (PikaKeyboard.downKey d) = Some true →
  ∃ d1 d2,
    PikaKeyboard.getInput w1 d = Some (w1, d1) ∧
    PikaKeyboard.getInput w2 d = Some (w2, d2) ∧
    PikaKeyboard.xDirection d1 = PikaKeyboard.xDirection d2 ∧
    PikaKeyboard.yDirection d1 = PikaKeyboard.yDirection d2.
Proof.
  intros Hd1 Hd2 Hleft Hup Hcombo Hright Hdown.
  destruct (keyboard_ok_deref w1 d Hd1)
    as (kl & kr & ku & kd & kp & kc & Hl & Hr & Hu & Hdn & Hp & Hc).
  destruct (keyboard_ok_deref w2 d Hd2)
    as (kl' & kr' & ku' & kd' & kp' & kc' & Hl' & Hr' & Hu' & Hdn' & Hp' & Hc').
  eexists _, _.
  split; [by eapply getInput_eq|]. split; [by eapply getInput_eq|]. simpl.
  unfold PikaKeyboard.read_isDown in *.
  rewrite Hl, Hl' in Hleft. rewrite Hu, Hu' in Hup.
  rewrite Hc in Hcombo. rewrite Hr' in Hright. rewrite Hdn' in Hdown.
  simpl in *.
  injection Hleft as ->. injection Hup as ->. injection Hcombo as ->.
  injection Hright as ->. injection Hdown as ->.
  rewrite !orb_true_r. done.
Qed.

Lemma combo_is_down_and_right_witness :
  ∃ d1 d2,
    PikaKeyboard.getInput
      (player1_holding false false false false false true).1 player1.2
      = Some ((player1_holding false false false false false true).1, d1) ∧
    PikaKeyboard.getInput
      (player1_holding false true false true false false).1 player1.2
      = Some ((player1_holding false true false true false false).1, d2) ∧
    PikaKeyboard.xDirection d1 = PikaKeyboard.xDirection d2 ∧
    PikaKeyboard.yDirection d1 = PikaKeyboard.yDirection d2.
Proof.
  apply combo_is_down_and_right; try reflexivity.
  - apply (Inv_player1_holding false false false false false true).
  - apply (Inv_player1_holding false true false true false false).
Defined.

(** X13.  Two [getInput()] calls with nothing in between: the second
    leaves the same directions as the first and [powerHit = 0], whatever
    the keys and the fields were; and from the second call on the
    keyboard no longer changes. *)
Theorem getInput_twice w d :
  keyboard_ok w d →
  ∃ d1 d2,
    PikaKeyboard.getInput w d = Some (w, d1) ∧
    PikaKeyboard.getInput w d1 = Some (w, d2) ∧
    PikaKeyboard.xDirection d2 = PikaKeyboard.xDirection d1 ∧
    PikaKeyboard.yDirection d2 = PikaKeyboard.yDirection d1 ∧
    PikaKeyboard.powerHit d2 = 0 ∧
    PikaKeyboard.getInput w d2 = Some (w, d2).
Proof.
  intros Hd.
  destruct (keyboard_ok_deref w d Hd)
    as (kl & kr & ku & kd & kp & kc & Hl & Hr & Hu & Hdn & Hp & Hc).
  eexists _, _.
  split; [by eapply getInput_eq|].
  split; [by eapply (getInput_eq w _ kl kr ku kd kp kc)|]. simpl.
  split_and!; try done.
  - by destruct (isDown kp).
  - rewrite (getInput_eq w _ kl kr ku kd kp kc) by done. simpl.
    by destruct (isDown kp).
Qed.

Lemma getInput_twice_witness :
  ∃ d1 d2,
    PikaKeyboard.getInput
      (player1_holding true false false false true false).1 player1.2
      = Some ((player1_holding true false false false true false).1, d1) ∧
    PikaKeyboard.getInput
      (player1_holding true false false false true false).1 d1
      = Some ((player1_holding true false false false true false).1, d2) ∧
    PikaKeyboard.snapshot d1 = (-1, 0, 1) ∧
    PikaKeyboard.snapshot d2 = (-1, 0, 0).
Proof.
  destruct (getInput_twice
              (player1_holding true false false false true false).1 player1.2)
    as (d1 & d2 & H1 & H2 & _).
  - apply (Inv_player1_holding true false false false true false).
  - exists d1, d2. split; [exact H1|]. split; [exact H2|].
    vm_compute in H1. injection H1 as <-.
    vm_compute in H2. by injection H2 as <-.
Defined.

(** ** Histories *)

Lemma step_length o s s' :
  Inv s → step o s = Some s' → length (heap s'.1) = length (heap s.1).
Proof.
  destruct s as [w d]. intros [Hok Hd]. simpl in *.
  destruct o as [t c| | |]; simpl.
  - destruct (dispatchEvent_spec (raw t c) w Hok)
      as (w' & event' & -> & _ & _ & Hlen & _).
    simpl. by intros [= <-].
  - destruct (PikaKeyboard_getInput_ok w d Hd) as (d' & -> & _).
    by intros [= <-].
  - destruct (PikaKeyboard_subscribe_spec w d) as (w' & -> & _ & Hh); [done|].
    intros [= <-]. simpl. by rewrite Hh.
  - destruct (PikaKeyboard_unsubscribe_spec w d Hd)
      as (w' & -> & _ & _ & Hlen & _).
    by intros [= <-].
Qed.

Lemma run_length ops : ∀ s s',
  Inv s → run ops s = Some s' → length (heap s'.1) = length (heap s.1).
Proof.
  induction ops as [|o rest IH]; intros s s' Hs; simpl.
  - by intros [= <-].
  - destruct (step_Inv o s Hs) as (s1 & Hstep & Hs1 & _).
    rewrite Hstep. simpl. intros Hrun.
    rewrite (IH s1 s' Hs1 Hrun). by eapply step_length.
Qed.

(** X14.  No history gets stuck, and none creates or removes a key
    object, changes the code of a key, or makes the keyboard refer to
    other keys: after any sequence of raw events, [getInput()],
    [subscribe()] and [unsubscribe()] calls the heap has the same length,
    every key has the code it had, and the six references are the same. *)
Theorem history_keeps_the_keys s ops :
  Inv s →
  ∃ s',
    run ops s = Some s' ∧
    length (heap s'.1) = length (heap s.1) ∧
    (∀ a k, heap s.1 !! a = Some k →
            ∃ k', heap s'.1 !! a = Some k' ∧ value k' = value k) ∧
    PikaKeyboard.keys s'.2 = PikaKeyboard.keys s.2.
Proof.
  intros Hs.
  destruct (run_Inv ops s Hs) as (s' & Hrun & _ & [_ Hev] & Hkeys).
  exists s'. split_and!; try done. by eapply run_length.
Qed.

Lemma history_keeps_the_keys_witness :
  ∃ s',
    run [Raw keydown "KeyD"; GetInput; Unsubscribe; Raw keydown "KeyG";
         Subscribe; Raw keyup "KeyD"; GetInput] player1 = Some s' ∧
    length (heap s'.1) = 6%nat ∧
    PikaKeyboard.keys s'.2 = PikaKeyboard.keys player1.2.
Proof.
  destruct (history_keeps_the_keys player1
              [Raw keydown "KeyD"; GetInput; Unsubscribe; Raw keydown "KeyG";
               Subscribe; Raw keyup "KeyD"; GetInput])
    as (s' & Hrun & Hlen & _ & Hkeys).
  - apply Inv_player1_holding.
  - exists s'. split; [exact Hrun|]. split; [exact Hlen|exact Hkeys].
Defined.

Lemma all_up_same_heap w w' d : heap w' = heap w → all_up w d → all_up w' d.
Proof.
  intros Hh Hup. eapply Forall_impl; [exact Hup|].
  intros r (k & Hk & Hrest). exists k. split; [|done].
  destruct r; simpl in *; [done|]. by rewrite Hh.
Qed.

(** X15.  [unsubscribe()] followed by [subscribe()] returns and leaves
    the keyboard subscribed again, with every key up: a key that was held
    across the two calls reads as up until its next keydown event. *)
Theorem resubscribe s :
  Inv s →
  ∃ s2,
    run [Unsubscribe; Subscribe] s = Some s2 ∧
    s2.2 = s.2 ∧
    Inv s2 ∧
    subscribed s2.1 s2.2 ∧
    all_up s2.1 s2.2.
Proof.
  destruct s as [w d]. intros Hs. simpl.
  destruct (unsubscribe_silences w d Hs) as (w1 & -> & [Hok1 Hd1] & _ & Hup1).
  simpl in *.
  destruct (for_each_subscribe_spec _ w1 Hd1 Hok1)
    as (w2 & He & Hok2 & Hh & _).
  rewrite PikaKeyboard_subscribe_for_each, He. simpl.
  exists (w2, d). split_and!; try done; simpl.
  - split; [done|]. simpl. eapply keyboard_ok_mono; [|exact Hd1].
    by rewrite Hh.
  - exact (for_each_subscribe_listening _ w1 w2 Hd1 Hok1 He).
  - by eapply all_up_same_heap.
Qed.

Lemma resubscribe_witness :
  ∃ s2,
    run [Unsubscribe; Subscribe]
      (player1_holding true false false true true false) = Some s2 ∧
    heap s2.1 = heap player1.1.
Proof.
  destruct (resubscribe (player1_holding true false false true true false))
    as (s2 & Hrun & _).
  - apply Inv_player1_holding.
  - exists s2. split; [exact Hrun|].
    vm_compute in Hrun. by injection Hrun as <-.
Defined.

(** ** No pulse without a press *)

Lemma keys_powerHitKey d d' :
  PikaKeyboard.keys d' = PikaKeyboard.keys d →
  PikaKeyboard.powerHitKey d' = PikaKeyboard.powerHitKey d.
Proof. unfold PikaKeyboard.keys. by intros [= _ _ _ _ -> _]. Qed.

Lemma step_action_key o s s1 k :
  Inv s → step o s = Some s1 → o ≠ GetInput →
  deref s.1 (PikaKeyboard.powerHitKey s.2) = Some k →
  ∃ k1,
    deref s1.1 (PikaKeyboard.powerHitKey s1.2) = Some k1 ∧
    value k1 = value k ∧
    (isDown k1 = true → isDown k = true ∨ is_press (value k) o = true).
Proof.
  intros Hs Hstep Hne Hk.
  rewrite (step_keeps_keyboard _ _ _ Hstep Hne).
  destruct s as [w d]. pose proof Hs as [Hok Hd]. simpl in *.
  destruct (PikaKeyboard.powerHitKey d) as [|a] eqn:Ha; [done|]. simpl in *.
  destruct o as [t c| | |]; simpl in *; [|done|..].
  - destruct (dispatchEvent_spec (raw t c) w Hok)
      as (w' & event' & Hdisp & _ & _ & _ & Hafter).
    rewrite Hdisp in Hstep. simpl in Hstep. injection Hstep as <-. simpl.
    destruct (Hafter a k Hk) as (k1 & Hk1 & Hcase).
    exists k1. split; [done|]. split; [by eapply key_after_value|].
    intros Hdown.
    destruct (key_after_cases _ _ _ _ _ Hcase)
      as [->|[(Hm & Hin & _)|(_ & _ & ->)]]; [by left| |done].
    right. simpl in Hin, Hm.
    destruct (ok_paired w Hok _ _ Hin) as [[=]|[= ->]]. done.
  - destruct (PikaKeyboard_subscribe_spec w d Hs) as (w' & Hsub & _ & Hh).
    rewrite Hsub in Hstep. injection Hstep as <-. simpl. rewrite Hh.
    exists k. auto.
  - destruct (PikaKeyboard_unsubscribe_spec w d Hd)
      as (w' & Hun & _ & _ & _ & _ & Hheap).
    rewrite Hun in Hstep. injection Hstep as <-. simpl.
    rewrite (Hheap a k Hk). eexists. split; [done|].
    case_decide; simpl; (split; [done|]); [by intros [=]|by left].
Qed.

Lemma pulses_bounded ops : ∀ s k,
  Inv s →
  deref s.1 (PikaKeyboard.powerHitKey s.2) = Some k →
  ∃ cs s',
    captures ops s = Some (cs, s') ∧
    total (map pulse cs) ≤
      presses (value k) ops +
      (if isDown k && negb (PikaKeyboard.powerHitKeyIsDownPrevious s.2)
       then 1 else 0).
Proof.
  induction ops as [|o rest IH]; intros s k Hs Hk; simpl.
  - exists [], s. split; [done|]. simpl. by destruct (_ && _).
  - assert (o = GetInput ∨ o ≠ GetInput) as [->|Hne]
      by (destruct o; [right|left|right|right]; done).
    + destruct s as [w d]. pose proof Hs as [Hok Hd]. simpl in Hok, Hd, Hk.
      destruct (getInput_pulse w d Hd) as (h & d' & Hh & Hget & Hhit & Hprev).
      destruct (PikaKeyboard_getInput_ok w d Hd) as (d'' & Hget' & Hkeys & _).
      assert (d'' = d') as -> by congruence.
      assert (Hh' : h = isDown k).
      { unfold PikaKeyboard.read_isDown in Hh. rewrite Hk in Hh.
        by injection Hh as <-. }
      destruct (IH (w, d') k) as (cs & s' & Hcap & Hle).
      { split; [done|]. unfold keyboard_ok. simpl. by rewrite Hkeys. }
      { simpl. by rewrite (keys_powerHitKey _ _ Hkeys). }
      simpl. rewrite Hget. simpl. rewrite Hcap. simpl. rewrite Hh. simpl.
      eexists _, s'. split; [done|]. simpl.
      simpl in Hle. rewrite Hprev, Hh' in Hle. rewrite Hhit, Hh'.
      revert Hle.
      destruct (isDown k), (PikaKeyboard.powerHitKeyIsDownPrevious d);
        simpl; lia.
    + destruct (step_Inv o s Hs) as (s1 & Hstep & Hs1 & _).
      destruct (step_action_key o s s1 k Hs Hstep Hne Hk)
        as (k1 & Hk1 & Hv & Hdown).
      destruct (IH s1 k1 Hs1 Hk1) as (cs & s' & Hcap & Hle).
      rewrite Hstep. simpl. rewrite Hcap. simpl.
      exists cs, s'. split; [by destruct o|].
      rewrite Hv, (step_keeps_keyboard _ _ _ Hstep Hne) in Hle.
      destruct (isDown k1) eqn:Hd1; simpl in Hle.
      * revert Hle.
        destruct (Hdown eq_refl) as [-> | ->]; simpl;
          destruct (is_press (value k) o), (isDown k),
            (PikaKeyboard.powerHitKeyIsDownPrevious s.2);
          simpl; lia.
      * revert Hle.
        destruct (is_press (value k) o),
          (isDown k && negb (PikaKeyboard.powerHitKeyIsDownPrevious s.2));
          lia.
Qed.

(** X16.  No pulse without a press.  In any history of a keyboard that
    starts with the action key up, the [getInput()] calls leave
    [powerHit = 1] at most as many times as the window delivered a keydown
    event with the code of the action key. *)
Theorem no_pulse_without_a_press s k ops :
  Inv s →
  deref s.1 (PikaKeyboard.powerHitKey s.2) = Some k →
  isDown k = false →
  ∃ cs s',
    captures ops s = Some (cs, s') ∧
    total (map pulse cs) ≤ presses (value k) ops.
Proof.
  intros Hs Hk Hup.
  destruct (pulses_bounded ops s k Hs Hk) as (cs & s' & Hcap & Hle).
  exists cs, s'. split; [done|]. rewrite Hup in Hle. simpl in Hle. lia.
Qed.

Lemma no_pulse_without_a_press_witness :
  ∃ cs s',
    captures [Raw keydown "KeyZ"; Raw keyup "KeyZ"; Raw keydown "KeyZ";
              GetInput; GetInput; Raw keyup "KeyZ"; GetInput;
              Raw keydown "KeyD"; GetInput] player1 = Some (cs, s') ∧
    total (map pulse cs) = 1 ∧
    presses (Some "KeyZ"%string)
      [Raw keydown "KeyZ"; Raw keyup "KeyZ"; Raw keydown "KeyZ";
       GetInput; GetInput; Raw keyup "KeyZ"; GetInput;
       Raw keydown "KeyD"; GetInput] = 2.
Proof.
  destruct (no_pulse_without_a_press player1 (key_state "KeyZ" false)
              [Raw keydown "KeyZ"; Raw keyup "KeyZ"; Raw keydown "KeyZ";
               GetInput; GetInput; Raw keyup "KeyZ"; GetInput;
               Raw keydown "KeyD"; GetInput])
    as (cs & s' & Hcap & _).
  - apply Inv_player1_holding.
  - reflexivity.
  - reflexivity.
  - exists cs, s'. split; [exact Hcap|].
    vm_compute in Hcap. injection Hcap as <- <-. split; reflexivity.
Defined.
